(** * GeoLifeMap: the snapshot cache, the interpolator, the rank-movement
    detector and the frame sequencer of [life_map_bar_anim.py].

    The development follows the last revision of the script
    ([life_map_bar_anim_20260227195707.py]) for [fetch_year_df],
    [find_latest_available_year], [interpolate_df], the ranking step of
    [main] and the frame loop of [main_race].  The movement detection is
    found in [render_frame] of [life_map_bar_anim_20260226225458.py] only:
    the block is [detect_moved], and the function around it, which reads
    its local [fig] before it has a value, is [Rev20260226.render_frame].

    Modelling conventions.
    - A pandas [DataFrame] is the list of its rows, in index order.
    - A [float] cell is an exact rational ([Q]); [NaN] (a missing cell)
      is [None].  IEEE rounding and overflow are outside the model.
    - The file system under [CACHE_DIR] is a finite map from years to
      frames; the WHO endpoint is an oracle indexed by the number of
      requests answered so far.
    - [DataFrame.sort_values] is called without [kind=], so it runs the
      library's default algorithm ([quicksort]), which promises a sorted
      permutation and nothing about the order of equal keys.  It is
      modelled by a [Sorter]: any function with that contract. *)

From Stdlib Require Import QArith Lqa.
From stdpp Require Import gmap strings list sorting.

Local Open Scope Z_scope.

(** ** Frames *)

(** One row of a frame with the columns [iso3], [life], [continent] and
    [rank].  [rank = None] stands for a frame that has no such column
    (or a missing cell in it). *)
Record Row := mkRow {
  iso3 : string;
  life : option Q;
  continent : option string;
  rank : option Z
}.

Abbreviation DataFrame := (list Row).

Global Instance Q_eq_dec : EqDecision Q.
Proof. solve_decision. Defined.

Global Instance Row_eq_dec : EqDecision Row.
Proof. solve_decision. Defined.

(** [df.empty] *)
Definition empty (df : DataFrame) : bool :=
  match df with [] => true | _ => false end.

(** ** Sorting *)

(** Stable insertion sort for a boolean order [leb]: [x] is put before
    the first element it is [leb] to. *)
Fixpoint insert_by {A} (leb : A → A → bool) (x : A) (l : list A) : list A :=
  match l with
  | [] => [x]
  | y :: l' => if leb x y then x :: l else y :: insert_by leb x l'
  end.

Definition isort {A} (leb : A → A → bool) (l : list A) : list A :=
  foldr (insert_by leb) [] l.

(** The keys handed to the sort are the non-missing values of the sort
    column, each paired with the row it comes from. *)
Abbreviation Keyed := (Q * Row)%type.

(** [x] may stand before [y] in a frame sorted by descending value. *)
Definition key_ge (x y : Keyed) : Prop := (y.1 <= x.1)%Q.
Definition key_geb (x y : Keyed) : bool := Qle_bool y.1 x.1.

(** What [sort_values(..., ascending=False)] promises with the default
    [kind]: a permutation of its input in descending key order. *)
Record Sorter := mkSorter {
  sort_keyed : list Keyed → list Keyed;
  sort_keyed_perm : ∀ l, sort_keyed l ≡ₚ l;
  sort_keyed_sorted : ∀ l, Sorted key_ge (sort_keyed l)
}.

Definition keyed (df : DataFrame) : list Keyed :=
  omap (λ r, v ← life r; Some (v, r)) df.

Definition isna_life (r : Row) : bool :=
  match life r with None => true | Some _ => false end.

(** [df.sort_values("life", ascending=False)]: the rows with a value in
    descending order, then the rows without one ([na_position="last"]),
    these in their original order. *)
Definition sort_values (s : Sorter) (df : DataFrame) : DataFrame :=
  (snd <$> sort_keyed s (keyed df)) ++ filter (λ r, isna_life r = true) df.

Definition set_rank (i : nat) (r : Row) : Row :=
  mkRow (iso3 r) (life r) (continent r) (Some (Z.of_nat i + 1)).

(** [df = df.reset_index(drop=True); df["rank"] = df.index + 1] *)
Definition assign_rank (df : DataFrame) : DataFrame := imap set_rank df.

(** The ranking step of [main] and [main_race]:
    [df.sort_values("life", ascending=False).reset_index(drop=True)]
    followed by [df["rank"] = df.index + 1]. *)
Definition rank_df (s : Sorter) (df : DataFrame) : DataFrame :=
  assign_rank (sort_values s df).

(** ** Interpolation *)

(** A row of [a.merge(b, on="iso3", how="outer", suffixes=("_0","_1"))]
    with [a = df0[["iso3","life","continent"]]] and
    [b = df1[["iso3","life"]]]. *)
Record Merged := mkMerged {
  m_iso3 : string;
  life_0 : option Q;
  m_continent : option string;
  life_1 : option Q
}.

(** The rows of the join that carry a row [ra] of the left frame. *)
Definition merge_left (b : DataFrame) (ra : Row) : list Merged :=
  match filter (λ rb, bool_decide (iso3 rb = iso3 ra) = true) b with
  | [] => [mkMerged (iso3 ra) (life ra) (continent ra) None]
  | bs => (λ rb, mkMerged (iso3 ra) (life ra) (continent ra) (life rb)) <$> bs
  end.

(** The rows for the keys that only the right frame has.  The right frame
    was cut down to [iso3] and [life], so [continent] is missing here. *)
Definition merge_right_only (a b : DataFrame) : list Merged :=
  (λ rb, mkMerged (iso3 rb) None None (life rb))
    <$> filter (λ rb, bool_decide (iso3 rb ∉ iso3 <$> a) = true) b.

(** The outer join: the union of the keys, sorted lexicographically. *)
Definition merge_outer (a b : DataFrame) : list Merged :=
  isort (λ x y, String.leb (m_iso3 x) (m_iso3 y))
        ((a ≫= merge_left b) ++ merge_right_only a b).

(** [s.where(~s.isna(), other)] *)
Definition where_notna (s other : option Q) : option Q :=
  match s with Some _ => s | None => other end.

(** The three assignments to [merged["life"]].  The sum, the difference
    and the product are those of [Q]: no rounding takes place. *)
Definition interp_life (l0 l1 : option Q) (t : Q) : option Q :=
  let v := (a ← l0; b ← l1; Some (a + (b - a) * t)%Q) in
  let v := where_notna v l0 in
  where_notna v l1.

Definition interp_row (t : Q) (m : Merged) : Row :=
  mkRow (m_iso3 m)
        (interp_life (life_0 m) (life_1 m) t)
        (Some (default "Other"%string (m_continent m)))
        None.

(** [merged[["iso3","life","continent"]].dropna(subset=["life"])] *)
Definition interp_rows (df0 df1 : DataFrame) (t : Q) : DataFrame :=
  filter (λ r, isna_life r = false) (interp_row t <$> merge_outer df0 df1).

Definition interpolate_df (s : Sorter) (df0 df1 : DataFrame) (t : Q)
  : DataFrame :=
  assign_rank (sort_values s (interp_rows df0 df1 t)).

(** *** Reading a frame as a mapping from identities *)

Definition keys (df : DataFrame) : list string := iso3 <$> df.

Definition row_of (df : DataFrame) (iso : string) : option Row :=
  head (filter (λ r, bool_decide (iso3 r = iso) = true) df).

Definition value_of (df : DataFrame) (iso : string) : option Q :=
  row_of df iso ≫= life.

Definition category_of (df : DataFrame) (iso : string) : option string :=
  row_of df iso ≫= continent.

Definition rank_of (df : DataFrame) (iso : string) : option Z :=
  row_of df iso ≫= rank.

(** The row without its [rank] cell. *)
Definition drop_rank (r : Row) : Row :=
  mkRow (iso3 r) (life r) (continent r) None.

(** [r1] may stand before [r2] in a frame in descending order of value:
    both have a value and that of [r1] is not the smaller one. *)
Definition life_ge (r1 r2 : Row) : Prop :=
  ∃ a b, life r1 = Some a ∧ life r2 = Some b ∧ (b <= a)%Q.

(** The ranks [1], [2], ..., [n], as the cells of a [rank] column. *)
Definition ranks_upto (n : nat) : list (option Z) :=
  (λ i, Some (Z.of_nat i)) <$> seq 1 n.

(** ** Movement detection *)

(** [dict(zip(df_prev["iso3"], df_prev["rank"]))]: a later row replaces
    an earlier one with the same key. *)
Definition prev_rank_of (df_prev : DataFrame) : gmap string (option Z) :=
  foldl (λ m r, <[iso3 r := rank r]> m) ∅ df_prev.

(** One turn of the loop over [df_bar.iterrows()].  [None] is the
    exception that [int(...)] or the column access raises when a rank is
    missing. *)
Definition moved_step (prev_rank : gmap string (option Z)) (alpha : Z)
    (moved : gset string) (r : Row) : option (gset string) :=
  match prev_rank !! iso3 r with
  | Some pr =>
      p ← pr; c ← rank r;
      Some (if bool_decide (alpha ≤ Z.abs (p - c))
            then {[iso3 r]} ∪ moved else moved)
  | None => Some moved
  end.

Fixpoint moved_loop (prev_rank : gmap string (option Z)) (alpha : Z)
    (moved : gset string) (df_bar : DataFrame) : option (gset string) :=
  match df_bar with
  | [] => Some moved
  | r :: rest =>
      moved' ← moved_step prev_rank alpha moved r;
      moved_loop prev_rank alpha moved' rest
  end.

(** The block of [render_frame] that computes [moved] from the visible
    rows [df_bar] and the previous frame. *)
Definition detect_moved (df_bar : DataFrame) (df_prev : option DataFrame)
    (alpha : Z) : option (gset string) :=
  match df_prev with
  | Some prev =>
      if empty prev then Some ∅
      else moved_loop (prev_rank_of prev) alpha ∅ df_bar
  | None => Some ∅
  end.

(** [df_bar = df_year.sort_values("life", ascending=False).head(top_n)] *)
Definition df_bar_of (s : Sorter) (df_year : DataFrame) (top_n : nat)
  : DataFrame :=
  take top_n (sort_values s df_year).

(** ** The cache and the fetcher *)

Definition some_country_codes : list string :=
  ["AFG"; "AGO"; "ALB"; "ARE"; "ARG"; "ARM"; "ATG"; "AUS"; "AUT"; "AZE";
   "BDI"; "BEL"; "BEN"; "BFA"; "BGD"; "BGR"; "BHR"; "BHS"; "BIH"; "BLR";
   "BLZ"; "BOL"; "BRA"; "BRB"; "BRN"; "BTN"; "BWA"; "CAF"; "CAN"; "CHE";
   "CHL"; "CHN"; "CIV"; "CMR"; "COD"; "COG"; "COL"; "COM"; "CPV"; "CRI";
   "CUB"; "CYP"; "CZE"; "DEU"; "DJI"; "DNK"; "DOM"; "DZA"; "ECU"; "EGY";
   "ERI"; "ESP"; "EST"; "ETH"; "FIN"; "FJI"; "FRA"; "FSM"; "GAB"; "GBR";
   "GEO"; "GHA"; "GIN"; "GMB"; "GNB"; "GNQ"; "GRC"; "GRD"; "GTM"; "GUY";
   "HND"; "HRV"; "HTI"; "HUN"; "IDN"; "IND"; "IRL"; "IRN"; "IRQ"; "ISL";
   "ISR"; "ITA"; "JAM"; "JOR"; "JPN"; "KAZ"; "KEN"; "KGZ"; "KHM"; "KIR";
   "KOR"; "KWT"; "LAO"; "LBN"; "LBR"; "LBY"; "LCA"; "LKA"; "LSO"; "LTU";
   "LUX"; "LVA"; "MAR"; "MDA"; "MDG"; "MDV"; "MEX"; "MKD"; "MLI"; "MLT";
   "MMR"; "MNE"; "MNG"; "MOZ"; "MRT"; "MUS"; "MWI"; "MYS"; "NAM"; "NER";
   "NGA"; "NIC"; "NLD"; "NOR"; "NPL"; "NZL"; "OMN"; "PAK"; "PAN"; "PER";
   "PHL"; "PNG"; "POL"; "PRI"; "PRK"; "PRT"; "PRY"; "PSE"; "QAT"; "ROU";
   "RUS"; "RWA"; "SAU"; "SDN"; "SEN"; "SGP"; "SLB"; "SLE"; "SLV"; "SOM";
   "SRB"; "SSD"; "STP"; "SUR"; "SVK"; "SVN"; "SWE"; "SWZ"; "SYC"; "SYR";
   "TCD"; "TGO"; "THA"; "TJK"; "TKM"; "TLS"; "TON"; "TTO"; "TUN"; "TUR";
   "TZA"; "UGA"; "UKR"; "URY"; "USA"; "UZB"; "VCT"; "VEN"; "VNM"; "VUT";
   "WSM"; "YEM"; "ZAF"; "ZMB"; "ZWE"]%string.

(** One record of the [value] array of a response. *)
Record ApiValue := mkApiValue {
  Dim1 : option string;
  NumericValue : option Q
}.

(** What [requests.get(...).json()] gives: [None] when it raises,
    otherwise [js.get("value", [])]. *)
Definition Response := option (list ApiValue).

(** The files [life_<year>.csv] under [CACHE_DIR], and the requests sent
    to the endpoint so far (oldest first). *)
Record World := mkWorld {
  cache : gmap Z DataFrame;
  requests : list (string * Z)
}.

(** Computations that read and change the world. *)
Definition M (A : Type) : Type := World → A * World.

Definition ret {A} (x : A) : M A := λ w, (x, w).
Definition bind {A B} (m : M A) (f : A → M B) : M B :=
  λ w, let '(x, w') := m w in f x w'.

Notation "x ←ᴹ m ;; k" := (bind m (λ x, k))
  (at level 100, m at next level, right associativity).

Fixpoint mapM {A B} (f : A → M B) (l : list A) : M (list B) :=
  match l with
  | [] => ret []
  | x :: l' => y ←ᴹ f x;; ys ←ᴹ mapM f l';; ret (y :: ys)
  end.

Section Fetch.

(** [CONTINENT_MAP] is read from a shapefile that is not part of the
    sources; the endpoint answers the [n]-th request for a country and a
    year as it pleases. *)
Variable CONTINENT_MAP : gmap string string.
Variable api : nat → string → Z → Response.

Definition http_get (code : string) (year : Z) : M Response :=
  λ w, (api (length (requests w)) code year,
        mkWorld (cache w) (requests w ++ [(code, year)])).

Definition is_btsx (v : ApiValue) : bool :=
  bool_decide (Dim1 v = Some "SEX_BTSX"%string).

(** The body of the loop over the codes, after the request: the row to
    append, if any. *)
Definition row_of_response (code : string) (resp : Response) : option Row :=
  vals ← resp;
  pick ← match List.find is_btsx vals with
         | Some v => Some v
         | None => head vals
         end;
  v ← NumericValue pick;
  Some (mkRow code (Some v)
          (Some (default "Other"%string (CONTINENT_MAP !! code))) None).

(** The fetcher: the loop of [fetch_year_df] over [some_country_codes]
    and the frame made of its rows. *)
Definition fetch_rows (year : Z) : M DataFrame :=
  rows ←ᴹ mapM (λ code, resp ←ᴹ http_get code year;;
                        ret (row_of_response code resp))
              some_country_codes;;
  ret (omap id rows).

Definition to_csv (year : Z) (df : DataFrame) : M unit :=
  λ w, (tt, mkWorld (<[year := df]> (cache w)) (requests w)).

Definition fetch_and_save (year : Z) : M DataFrame :=
  df ←ᴹ fetch_rows year;;
  if empty df then ret df
  else (_ ←ᴹ to_csv year df;; ret df).

Definition fetch_year_df (year : Z) : M DataFrame :=
  λ w, match cache w !! year with
       | Some df => if empty df then fetch_and_save year w else (df, w)
       | None => fetch_and_save year w
       end.

(** ** The availability resolver *)

(** The loop of [find_latest_available_year] from year [y] on, for [n]
    more years. *)
Fixpoint find_loop (y : Z) (n : nat) : M (option Z) :=
  match n with
  | O => ret None
  | S n' =>
      df ←ᴹ fetch_year_df y;;
      if empty df then find_loop (y - 1) n' else ret (Some y)
  end.

(** [range(candidate, candidate - max_back, -1)] has [max_back] years
    when that is positive and none otherwise. *)
Definition find_latest_available_year (candidate max_back : Z) : M Z :=
  r ←ᴹ find_loop candidate (Z.to_nat max_back);;
  ret (default (candidate - max_back) r).

(** The world after the years [y], [y-1], ..., [y-k+1] have been
    probed, one after the other, starting in [w]. *)
Fixpoint after_probes (y : Z) (k : nat) (w : World) : World :=
  match k with
  | O => w
  | S k' => after_probes (y - 1) k' (fetch_year_df y w).2
  end.

(** The frame that the [k]-th probe (from 0) gets: the one of the year
    [y - k]. *)
Definition probe (y : Z) (k : nat) (w : World) : DataFrame :=
  (fetch_year_df (y - Z.of_nat k) (after_probes y k w)).1.

End Fetch.

(** ** The frame sequencer *)

(** [f"{y}+{t:.2f}"] for an interpolated frame, [str(end)] for the last
    year. *)
Inductive Label :=
  | LInterp (y : Z) (t : Q)
  | LYear (y : Z).

(** One call of [render_frame]: the frame drawn, the previous frame
    handed over, the label and the number in the file name. *)
Record Frame := mkFrame {
  f_df : DataFrame;
  f_prev : option DataFrame;
  f_label : Label;
  f_idx : nat
}.

Record SeqState := mkSeqState {
  frame_idx : nat;
  prev_df : option DataFrame;
  emitted : list Frame
}.

(** [t = s / steps] *)
Definition step_t (k steps : nat) : Q :=
  (inject_Z (Z.of_nat k) / inject_Z (Z.of_nat steps))%Q.

(** The body of [for s in range(steps)]. *)
Definition emit_interp (s : Sorter) (df0 df1 : DataFrame) (y : Z)
    (steps : nat) (st : SeqState) (k : nat) : SeqState :=
  let t := step_t k steps in
  let df_t := interpolate_df s df0 df1 t in
  mkSeqState (S (frame_idx st)) (Some df_t)
    (emitted st ++ [mkFrame df_t (prev_df st) (LInterp y t) (frame_idx st)]).

(** The body of [for y in range(start, end)]. *)
Definition pair_step (s : Sorter) (year_dfs : gmap Z DataFrame)
    (steps : nat) (st : SeqState) (y : Z) : SeqState :=
  match year_dfs !! y, year_dfs !! (y + 1) with
  | Some df0, Some df1 => foldl (emit_interp s df0 df1 y steps) st (seq 0 steps)
  | _, _ => st
  end.

Definition race_loop (s : Sorter) (year_dfs : gmap Z DataFrame)
    (start end_ : Z) (steps : nat) : SeqState :=
  foldl (pair_step s year_dfs steps) (mkSeqState 0 None [])
        (seqZ start (end_ - start)).

(** The frames of [main_race] from [frame_idx = 0] on: the loop over the
    year pairs, then one frame for the last year. *)
Definition main_race_frames (s : Sorter) (year_dfs : gmap Z DataFrame)
    (start end_ : Z) (steps : nat) : list Frame :=
  let st := race_loop s year_dfs start end_ steps in
  match year_dfs !! end_ with
  | Some df_last =>
      emitted st ++ [mkFrame df_last (prev_df st) (LYear end_) (frame_idx st)]
  | None => emitted st
  end.

(** ** Definitions for the statements *)

(** Every row of the frame has a rank. *)
Definition ranked (df : DataFrame) : Prop := Forall (λ r, is_Some (rank r)) df.

(** The value of an identity in the result, in the words of the
    specification: interpolated when both frames have a value, carried
    over when one has, none when neither has. *)
Definition interpolate_value_spec (va vb : option Q) (t : Q) : option Q :=
  match va, vb with
  | Some x, Some y => Some (x + (y - x) * t)%Q
  | Some x, None => Some x
  | None, Some y => Some y
  | None, None => None
  end.

(** The category of an identity in the result, in the words of the
    specification: that of the first frame, else that of the second,
    else a default. *)
Definition category_spec (a b : DataFrame) (iso : string) : string :=
  match category_of a iso with
  | Some c => c
  | None => default "unassigned"%string (category_of b iso)
  end.

(** The requests one run of the fetcher sends. *)
Definition fetcher_requests (year : Z) : list (string * Z) :=
  (λ code, (code, year)) <$> some_country_codes.

(** The frames of the year pair [(y, y+1)]: the [steps] interpolated
    frames when both years have a frame, none otherwise. *)
Definition pair_frames (s : Sorter) (year_dfs : gmap Z DataFrame)
    (steps : nat) (y : Z) : list (DataFrame * Label) :=
  match year_dfs !! y, year_dfs !! (y + 1) with
  | Some df0, Some df1 =>
      (λ k, (interpolate_df s df0 df1 (step_t k steps),
             LInterp y (step_t k steps))) <$> seq 0 steps
  | _, _ => []
  end.

(** The frames of the whole run with their labels: those of the pairs
    [(start, start+1)], ..., [(end-1, end)], then the frame of the year
    [end] itself, if there is one. *)
Definition race_frames (s : Sorter) (year_dfs : gmap Z DataFrame)
    (start end_ : Z) (steps : nat) : list (DataFrame * Label) :=
  (seqZ start (end_ - start) ≫= pair_frames s year_dfs steps)
  ++ match year_dfs !! end_ with
     | Some df_last => [(df_last, LYear end_)]
     | None => []
     end.

(** ** Example data *)

(** The frame of 2000: no value occurs twice. *)
Definition year_2000 : DataFrame :=
  [mkRow "USA" (Some 77%Q) (Some "North America"%string) None;
   mkRow "JPN" (Some 81%Q) (Some "Asia"%string) None].

(** The frame of 2001: Australia enters. *)
Definition year_2001 : DataFrame :=
  [mkRow "USA" (Some 78%Q) (Some "North America"%string) None;
   mkRow "JPN" (Some 82%Q) (Some "Asia"%string) None;
   mkRow "AUS" (Some 80%Q) (Some "Oceania"%string) None].

(** The frame of 2002: New Zealand enters. *)
Definition year_2002 : DataFrame :=
  [mkRow "USA" (Some 79%Q) (Some "North America"%string) None;
   mkRow "JPN" (Some 83%Q) (Some "Asia"%string) None;
   mkRow "AUS" (Some 81%Q) (Some "Oceania"%string) None;
   mkRow "NZL" (Some 80%Q) (Some "Oceania"%string) None].

(** The frames of the example: the previous ranks are A:1, B:2, C:3 and
    the current ones C:1, B:2, A:3. *)
Definition previous_ABC : DataFrame :=
  [mkRow "A" (Some 80%Q) (Some "Asia"%string) (Some 1);
   mkRow "B" (Some 79%Q) (Some "Asia"%string) (Some 2);
   mkRow "C" (Some 78%Q) (Some "Asia"%string) (Some 3)].

Definition current_ABC : DataFrame :=
  [mkRow "C" (Some 83%Q) (Some "Asia"%string) (Some 1);
   mkRow "B" (Some 82%Q) (Some "Asia"%string) (Some 2);
   mkRow "A" (Some 81%Q) (Some "Asia"%string) (Some 3)].

(** A small endpoint for the examples: it has figures for Japan and the
    United States up to 2018 and nothing for later years, and it fails
    for Zimbabwe. *)
Definition api_sample (n : nat) (code : string) (year : Z) : Response :=
  if bool_decide (code = "ZWE"%string) then None
  else if bool_decide (year ≤ 2018) && bool_decide (code ∈ ["JPN"; "USA"]%string)
  then Some [mkApiValue (Some "SEX_MLE"%string) (Some (80#1));
             mkApiValue (Some "SEX_BTSX"%string) (Some (83#1));
             mkApiValue (Some "SEX_FMLE"%string) (Some (86#1))]
  else Some [].

Definition continents_sample : gmap string string :=
  {[ "JPN"%string := "Asia"%string ]}.

(** Nothing in the cache, no request sent. *)
Definition world_0 : World := mkWorld ∅ [].

(** The file of 2018 is there and holds a frame without rows. *)
Definition world_empty_2018 : World := mkWorld {[ 2018 := [] ]} [].

(** The world of the resolver example: the year 2018 is in the cache,
    and the endpoint has nothing for the years after it. *)
Definition world_2018 : World :=
  mkWorld {[ 2018 := [mkRow "JPN" (Some (83#1)) (Some "Asia"%string) None] ]} [].

(** * The rest of the script *)

(** ** Settings *)

Definition START_YEAR : Z := 2000.
Definition END_YEAR : Z := 2021.
Definition MAX_BACK : Z := 6.
Definition TOP_N : nat := 40.

(** [RANGE_COLOR[1]] and the [pad] of [render_frame]. *)
Definition RANGE_COLOR_HI : Q := 85.
Definition pad : Q := 3.

Definition CONTINENT_ORDER : list string :=
  ["Asia"; "Europe"; "Africa"; "North America"; "South America"; "Oceania";
   "Antarctica"]%string.

(** The [cont_order] of [render_frame]. *)
Definition cont_order : list string :=
  ["Europe"; "Asia"; "Africa"; "North America"; "South America"; "Oceania";
   "Other"]%string.

(** ** The years in the cache *)

(** The years that have a file, ascending ([sorted(set(years))]). *)
Definition cache_years (w : World) : list Z :=
  merge_sort Z.le (elements (dom (cache w))).

(** [cached_years()].  The file of a year is [life_<year>.csv], and the
    pattern [life_(\d{4})\.csv$] finds the names with four digits after
    the underscore and no others: the years from 1000 to 9999. *)
Definition cached_years : M (list Z) :=
  λ w, (filter (λ y, 1000 ≤ y ≤ 9999) (cache_years w), w).

(** [list_cached_years()]: every name whose part after the underscore
    reads as an integer. *)
Definition list_cached_years : M (list Z) := λ w, (cache_years w, w).

(** [max(l)] for a list that is not empty. *)
Definition max_of (y : Z) (l : list Z) : Z := foldl Z.max y l.

(** [for x in l: f(x)] *)
Fixpoint forM_ {A} (f : A → M unit) (l : list A) : M unit :=
  match l with
  | [] => ret tt
  | x :: l' => _ ←ᴹ f x;; forM_ f l'
  end.

(** [range(a, b)] *)
Definition range (a b : Z) : list Z := seqZ a (b - a).

Section Pipeline.
Variable CONTINENT_MAP : gmap string string.
Variable api : nat → string → Z → Response.

(** The body of the loop of [ensure_cache]. *)
Definition ensure_step (have : list Z) (y : Z) : M unit :=
  if bool_decide (y ∈ have) then ret tt
  else (_ ←ᴹ fetch_year_df CONTINENT_MAP api y;; ret tt).

(** [ensure_cache(start_year, end_year)] *)
Definition ensure_cache (start_year end_year : Z) : M unit :=
  have ←ᴹ cached_years;;
  forM_ (ensure_step have) (range start_year (end_year + 1)).

(** The loop of [main_race] that fills [year_dfs]: a year whose frame is
    empty is left out, the frame of every other year is ranked. *)
Fixpoint collect_year_dfs (s : Sorter) (years : list Z)
    (year_dfs : gmap Z DataFrame) : M (gmap Z DataFrame) :=
  match years with
  | [] => ret year_dfs
  | year :: rest =>
      df ←ᴹ fetch_year_df CONTINENT_MAP api year;;
      if empty df then collect_year_dfs s rest year_dfs
      else collect_year_dfs s rest (<[year := rank_df s df]> year_dfs)
  end.

(** The first part of [main_race]: the last year of the run.  [None] is
    the [RuntimeError]; [this_year] is [time.gmtime().tm_year]. *)
Definition race_end (update_cache : bool) (this_year : Z) : M (option Z) :=
  if update_cache then
    cached ←ᴹ cached_years;;
    let candidate := match cached with
                     | [] => END_YEAR
                     | y :: l => max_of y l
                     end in
    let candidate := Z.max candidate (this_year - 1) in
    latest ←ᴹ find_latest_available_year CONTINENT_MAP api candidate MAX_BACK;;
    _ ←ᴹ ensure_cache START_YEAR latest;;
    ret (Some latest)
  else
    yrs ←ᴹ cached_years;;
    match yrs with
    | [] => ret None
    | y :: l => ret (Some (max_of y l))
    end.

(** [main_race(update_cache)], with [steps = 12]: the calls of
    [render_frame], or [None] for the [RuntimeError]. *)
Definition main_race (s : Sorter) (update_cache : bool) (this_year : Z)
  : M (option (list Frame)) :=
  e ←ᴹ race_end update_cache this_year;;
  match e with
  | None => ret None
  | Some end_ =>
      year_dfs ←ᴹ collect_year_dfs s (range START_YEAR (end_ + 1)) ∅;;
      ret (Some (main_race_frames s year_dfs START_YEAR end_ 12))
  end.

(** [pd.read_csv(CACHE_DIR / f"life_{y}.csv")] for a year that
    [list_cached_years] gave, whose file is therefore there. *)
Definition read_csv (y : Z) : M DataFrame :=
  λ w, (default [] (cache w !! y), w).

(** The first loop of [main]. *)
Fixpoint main_year_dfs (s : Sorter) (update_cache : bool) (years : list Z)
    (year_dfs : gmap Z DataFrame) : M (gmap Z DataFrame) :=
  match years with
  | [] => ret year_dfs
  | y :: rest =>
      df ←ᴹ (if update_cache then fetch_year_df CONTINENT_MAP api y
             else read_csv y);;
      if empty df then main_year_dfs s update_cache rest year_dfs
      else main_year_dfs s update_cache rest (<[y := rank_df s df]> year_dfs)
  end.

End Pipeline.

(** One call of [render_frame] in [main]: the year (which names the
    file), the frame and the previous frame. *)
Record YearFrame := mkYearFrame {
  yf_year : Z;
  yf_df : DataFrame;
  yf_prev : option DataFrame
}.

(** The second loop of [main], from [prev_df] on. *)
Fixpoint main_frames (year_dfs : gmap Z DataFrame) (prev_df : option DataFrame)
    (years : list Z) : list YearFrame :=
  match years with
  | [] => []
  | y :: rest =>
      match year_dfs !! y with
      | None => main_frames year_dfs prev_df rest
      | Some df_year =>
          mkYearFrame y df_year prev_df
            :: main_frames year_dfs (Some df_year) rest
      end
  end.

(** [main(update_cache)]: the calls of [render_frame], or [None] for the
    [RuntimeError]. *)
Definition main (CONTINENT_MAP : gmap string string)
    (api : nat → string → Z → Response) (s : Sorter) (update_cache : bool)
  : M (option (list YearFrame)) :=
  years ←ᴹ (if update_cache then ret (Some (range START_YEAR (END_YEAR + 1)))
            else
              all ←ᴹ list_cached_years;;
              let cached :=
                filter (λ y, START_YEAR ≤ y ≤ END_YEAR) all in
              match cached with
              | [] => ret None
              | _ => ret (Some cached)
              end);;
  match years with
  | None => ret None
  | Some years_to_use =>
      year_dfs ←ᴹ main_year_dfs CONTINENT_MAP api s update_cache
                     years_to_use ∅;;
      ret (Some (main_frames year_dfs None years_to_use))
  end.

(** ** Grouping the bars by continent *)

(** The frames appended to [parts]: the one of every continent of
    [CONTINENT_ORDER] that is not empty, in this order. *)
Definition continent_parts (s : Sorter) (df_top : DataFrame) : list DataFrame :=
  omap (λ cont,
          let part := sort_values s
                        (filter (λ r, continent r = Some cont) df_top) in
          if empty part then None else Some part)
       CONTINENT_ORDER.

(** [df_top["continent"].isin(CONTINENT_ORDER)] for one row; a missing
    category is in no list. *)
Definition isin_order (r : Row) : bool :=
  match continent r with
  | Some c => bool_decide (c ∈ CONTINENT_ORDER)
  | None => false
  end.

(** [top_n_grouped(df, top_n)] *)
Definition top_n_grouped (s : Sorter) (df : DataFrame) (top_n : nat)
  : DataFrame :=
  let df_top := take top_n (sort_values s df) in
  let parts := continent_parts s df_top in
  let rest :=
    sort_values s (filter (λ r, isin_order r = false) df_top) in
  let parts := if empty rest then parts else parts ++ [rest] in
  match parts with
  | [] => df_top
  | _ => concat parts
  end.

(** ** The bars of [render_frame] *)

(** [df_bar["continent"].fillna("Other").tolist()] *)
Definition cont_seq_of (df_bar : DataFrame) : list string :=
  (λ r, default "Other"%string (continent r)) <$> df_bar.

(** [[c for c in cont_order if c in set(cont_seq)]] *)
Definition present_of (cont_seq : list string) : list string :=
  filter (λ c, c ∈ cont_seq) cont_order.

(** [x_cont] for one continent: the value where the bar is of this
    continent, [None] elsewhere. *)
Definition x_cont_of (x : list (option Q)) (cont_seq : list string)
    (cont : string) : list (option (option Q)) :=
  zip_with (λ val c, if bool_decide (c = cont) then Some val else None)
           x cont_seq.

(** The coloured traces of the bar chart, one for every continent
    present. *)
Definition bar_traces (df_bar : DataFrame)
  : list (string * list (option (option Q))) :=
  let x := life <$> df_bar in
  let cont_seq := cont_seq_of df_bar in
  (λ cont, (cont, x_cont_of x cont_seq cont)) <$> present_of cont_seq.

(** [CONT_ABBR] *)
Definition CONT_ABBR : gmap string string :=
  list_to_map
    [("Europe", "EU"); ("Asia", "AS"); ("North America", "NA");
     ("South America", "SA"); ("Oceania", "OC"); ("Africa", "AF");
     ("Other", "OT")]%string.

(** [counts.get(c, 0)] for the [value_counts] of [cont_seq]. *)
Definition count_of (cont_seq : list string) (c : string) : nat :=
  length (filter (λ c', c' = c) cont_seq).

(** The comprehension of the subtitle over the continents [cs]: the
    abbreviation and the count of every continent that is counted, before
    they are joined with " / ".  [None] is the [KeyError] of
    [CONT_ABBR[c]]. *)
Fixpoint subtitle_loop (counts : string → nat) (cs : list string)
  : option (list (string * nat)) :=
  match cs with
  | [] => Some []
  | c :: cs' =>
      if bool_decide (0 < counts c)%nat then
        abbr ← CONT_ABBR !! c;
        rest ← subtitle_loop counts cs';
        Some ((abbr, counts c) :: rest)
      else subtitle_loop counts cs'
  end.

Definition subtitle_parts (df_bar : DataFrame) : option (list (string * nat)) :=
  subtitle_loop (count_of (cont_seq_of df_bar)) cont_order.

(** Python's [max(a, b)] on floats: [b] when it is greater, else [a]. *)
Definition py_max (a b : Q) : Q := if Qle_bool b a then a else b.

(** [df_bar["life"].max()]: the greatest value, [None] when no row has
    one. *)
Definition life_max (df_bar : DataFrame) : option Q :=
  foldr (λ r m, match life r, m with
                | Some v, Some m' => Some (py_max m' v)
                | Some v, None => Some v
                | None, _ => m
                end) None df_bar.

(** The upper end of the value axis: [max(RANGE_COLOR[1], x_max + pad)]
    with [x_max] the greatest value, or [RANGE_COLOR[1]] for an empty
    frame; a comparison with NaN is false. *)
Definition x_hi_of (df_bar : DataFrame) : Q :=
  if empty df_bar then py_max RANGE_COLOR_HI (RANGE_COLOR_HI + pad)
  else match life_max df_bar with
       | Some x_max => py_max RANGE_COLOR_HI (x_max + pad)
       | None => RANGE_COLOR_HI
       end.

(** ** The cache of the revision of 26 February *)

Module Rev20260226.

(** [fetch_year_df] of [life_map_bar_anim_20260226225458.py]: a file that
    is there is read and returned, whatever it holds, and what is fetched
    is written, whatever it is. *)
Definition fetch_year_df (CONTINENT_MAP : gmap string string)
    (api : nat → string → Z → Response) (year : Z) : M DataFrame :=
  λ w, match cache w !! year with
       | Some df => (df, w)
       | None =>
           (df ←ᴹ fetch_rows CONTINENT_MAP api year;;
            _ ←ᴹ to_csv year df;;
            ret df) w
       end.

(** *** [render_frame] *)

(** The exceptions that the body of [render_frame] can raise:
    [RankError] stands for the [KeyError] or [ValueError] of a missing
    rank in the block that computes [moved]. *)
Inductive Exn :=
  | UnboundLocalError (name : string)
  | RankError.

Definition bindE {A B} (m : Exn + A) (f : A → Exn + B) : Exn + B :=
  match m with
  | inl e => inl e
  | inr a => f a
  end.

Local Notation "x ←ᴱ m ;; k" := (bindE m (λ x, k))
  (at level 100, m at next level, right associativity).

(** Reading a local variable.  A name that the body of a function
    assigns anywhere is a local variable of the function from its first
    line on; until an assignment has run it has no value ([None]), and
    reading it raises [UnboundLocalError]. *)
Definition load {A} (name : string) (local : option A) : Exn + A :=
  match local with
  | Some v => inr v
  | None => inl (UnboundLocalError name)
  end.

(** The traces of a figure: [go.Bar] with its [x], [y] and [name], and
    [go.Choropleth] with its [locations] and [z].  A cell of [x] is
    [None] where the list holds Python's [None]. *)
Inductive Trace :=
  | Bar (x : list (option (option Q))) (y : list string) (name : option string)
  | Choropleth (locations : list string) (z : list (option Q)).

(** [Series.unique()]: the values in the order of their first
    appearance. *)
Fixpoint unique (l : list string) : list string :=
  match l with
  | [] => []
  | c :: l' => c :: filter (λ c', c' ≠ c) (unique l')
  end.

(** [x_cont] for one continent; [cont_seq] is the column as it is, so a
    missing category equals no continent. *)
Definition x_cont_of (x : list (option Q)) (cont_seq : list (option string))
    (cont : string) : list (option (option Q)) :=
  zip_with (λ val c, if bool_decide (c = Some cont) then Some val else None)
           x cont_seq.

(** What a call that returns leaves behind: the local [moved] and the
    traces of the figure written to [out_png]. *)
Record Rendered := mkRendered {
  r_moved : gset string;
  r_traces : list Trace
}.

(** [render_frame(df_year, df_prev, year, out_png, alpha, top_n)] of
    [life_map_bar_anim_20260226225458.py], statement by statement.  The
    only assignment to [fig] is [fig = make_subplots(...)] at line 198.
    The calls that set the axes (lines 184-185 and 222-232) and the
    writing of the image come after line 155 and are not modelled. *)
Definition render_frame (s : Sorter) (df_year : DataFrame)
    (df_prev : option DataFrame) (alpha : Z) (top_n : nat) : Exn + Rendered :=
  let fig : option (list Trace) := None in
  (* lines 139-142 *)
  let df_bar := df_bar_of s df_year top_n in
  let y := keys df_bar in
  let x := life <$> df_bar in
  let cont_seq := continent <$> df_bar in
  (* line 155: [fig.add_trace(go.Bar(x=x, y=y, ...))] *)
  f ←ᴱ load "fig" fig;;
  let f := f ++ [Bar (Some <$> x) y None] in
  (* lines 167-182 *)
  let continents_in_top := unique (cont_seq_of df_bar) in
  let f := foldl (λ f cont, f ++ [Bar (x_cont_of x cont_seq cont) y (Some cont)])
                 f continents_in_top in
  (* lines 187-194 *)
  moved ←ᴱ match detect_moved df_bar df_prev alpha with
           | Some moved => inr moved
           | None => inl RankError
           end;;
  (* line 198: [fig = make_subplots(...)], and the map at line 206 *)
  let fig := [] in
  let fig := fig ++ [Choropleth (keys df_year) (life <$> df_year)] in
  inr (mkRendered moved fig).

End Rev20260226.

(** * Properties *)

(** *** Facts about the insertion sort *)

Lemma Sorted_weaken {A} (R1 R2 : relation A) l :
  (∀ a b, R1 a b → R2 a b) → Sorted R1 l → Sorted R2 l.
Proof.
  intros HR. induction 1 as [|x l Hs IH Hhd]; constructor; [done|].
  destruct Hhd; constructor; auto.
Qed.

Section isort.
Context {A : Type} (leb : A → A → bool).

Lemma insert_by_perm x l : insert_by leb x l ≡ₚ x :: l.
Proof.
  induction l as [|y l IH]; simpl; [done|].
  destruct (leb x y); [done|]. rewrite IH. apply Permutation_swap.
Qed.

Lemma isort_perm l : isort leb l ≡ₚ l.
Proof.
  induction l as [|x l IH]; simpl; [done|].
  fold (isort leb l). by rewrite insert_by_perm, IH.
Qed.

Hypothesis leb_total : ∀ x y, leb x y = true ∨ leb y x = true.

Lemma insert_by_sorted x l :
  Sorted (λ a b, leb a b = true) l →
  Sorted (λ a b, leb a b = true) (insert_by leb x l).
Proof.
  induction 1 as [|y l Hs IH Hhd]; simpl.
  - repeat constructor.
  - destruct (leb x y) eqn:Hxy.
    + constructor; [by constructor|by constructor].
    + constructor; [done|].
      destruct (leb_total x y) as [?|Hyx]; [congruence|].
      destruct Hhd as [|z l Hyz]; simpl.
      * by constructor.
      * destruct (leb x z); by constructor.
Qed.

Lemma isort_sorted l : Sorted (λ a b, leb a b = true) (isort leb l).
Proof.
  induction l as [|x l IH]; simpl; [constructor|].
  by apply insert_by_sorted.
Qed.

(** A sorted list is left as it is: equal keys keep their order. *)
Lemma isort_id l : Sorted (λ a b, leb a b = true) l → isort leb l = l.
Proof.
  induction 1 as [|x l Hs IH Hhd]; simpl; [done|].
  fold (isort leb l). rewrite IH.
  destruct Hhd as [|y l Hxy]; simpl; [done|]. by rewrite Hxy.
Qed.
End isort.

Lemma key_geb_ge x y : key_geb x y = true ↔ key_ge x y.
Proof. apply Qle_bool_iff. Qed.

Lemma key_geb_total x y : key_geb x y = true ∨ key_geb y x = true.
Proof.
  rewrite !key_geb_ge. unfold key_ge.
  destruct (Qlt_le_dec x.1 y.1) as [?%Qlt_le_weak|?]; auto.
Qed.

Lemma Sorted_key_geb l :
  Sorted (λ a b, key_geb a b = true) l ↔ Sorted key_ge l.
Proof.
  split; apply Sorted_weaken; intros a b; by rewrite key_geb_ge.
Qed.

(** The stable instance: ties keep the order of the input. *)
Definition stable_sorter : Sorter :=
  mkSorter (isort key_geb) (isort_perm key_geb)
    (λ l, proj1 (Sorted_key_geb _) (isort_sorted key_geb key_geb_total l)).


(** *** Filters *)

Lemma filter_none {A} (P : A → Prop) `{∀ x, Decision (P x)} (l : list A) :
  Forall (λ x, ¬ P x) l → filter P l = [].
Proof.
  induction 1 as [|x l Hx Hl IH]; [done|]. by rewrite filter_cons_False.
Qed.

Lemma filter_all {A} (P : A → Prop) `{∀ x, Decision (P x)} (l : list A) :
  Forall P l → filter P l = l.
Proof.
  induction 1 as [|x l Hx Hl IH]; [done|].
  rewrite filter_cons_True by done. by f_equal.
Qed.

(** *** Sorting and ranking a frame *)

Lemma keyed_snd df : (keyed df).*2 = filter (λ r, isna_life r = false) df.
Proof.
  unfold keyed. induction df as [|r df IH]; [done|]. csimpl.
  destruct (life r) eqn:Hr; csimpl.
  - rewrite filter_cons_True by (unfold isna_life; by rewrite Hr).
    by rewrite IH.
  - rewrite filter_cons_False by (unfold isna_life; by rewrite Hr).
    by rewrite IH.
Qed.

Lemma keyed_life df : Forall (λ p : Keyed, life p.2 = Some p.1) (keyed df).
Proof.
  unfold keyed. induction df as [|r df IH]; simpl; [constructor|].
  destruct (life r) eqn:Hr; simpl; [constructor|]; done.
Qed.

Lemma keyed_app df1 df2 : keyed (df1 ++ df2) = keyed df1 ++ keyed df2.
Proof. apply omap_app. Qed.

Lemma filter_isna_split (df : DataFrame) :
  filter (λ r, isna_life r = false) df ++ filter (λ r, isna_life r = true) df
  ≡ₚ df.
Proof.
  induction df as [|r df IH]; [done|].
  rewrite !filter_cons. destruct (isna_life r) eqn:Hr.
  - rewrite decide_False, decide_True by done.
    rewrite <-Permutation_middle. by f_equiv.
  - rewrite decide_True, decide_False by done. simpl. by f_equiv.
Qed.

Lemma sort_values_perm s df : sort_values s df ≡ₚ df.
Proof.
  unfold sort_values. rewrite (sort_keyed_perm s), keyed_snd.
  apply filter_isna_split.
Qed.

Lemma sort_values_length s df : length (sort_values s df) = length df.
Proof. by rewrite sort_values_perm. Qed.

(** The rows that have a value come out in descending order. *)
Lemma sort_keyed_rows_sorted s df :
  Sorted life_ge ((sort_keyed s (keyed df)).*2).
Proof.
  assert (Forall (λ p : Keyed, life p.2 = Some p.1) (sort_keyed s (keyed df)))
    as Hl by (rewrite sort_keyed_perm; apply keyed_life).
  pose proof (sort_keyed_sorted s (keyed df)) as Hs.
  induction Hs as [|x l Hs IH Hhd]; simpl; [constructor|].
  apply Forall_cons in Hl as [Hx Hl]. constructor; [auto|].
  destruct Hhd as [|y l Hxy]; simpl; constructor.
  apply Forall_cons in Hl as [Hy _]. by exists x.1, y.1.
Qed.

Lemma sort_values_notna s df :
  Forall (λ r, isna_life r = false) df →
  sort_values s df = (sort_keyed s (keyed df)).*2.
Proof.
  intros Hdf. unfold sort_values.
  rewrite filter_none, app_nil_r; [done|].
  eapply Forall_impl; [exact Hdf|]. simpl. intros r ->. done.
Qed.

Lemma assign_rank_length df : length (assign_rank df) = length df.
Proof. apply length_imap. Qed.

Lemma imap_set_rank_ranks k (df : DataFrame) :
  rank <$> imap (λ i, set_rank (k + i)) df
  = (λ i, Some (Z.of_nat i)) <$> seq (S k) (length df).
Proof.
  revert k. induction df as [|r df IH]; intros k; [done|].
  rewrite imap_cons. csimpl. f_equal.
  - f_equal. lia.
  - rewrite <-(IH (S k)). f_equal. apply imap_ext. intros i x _. simpl.
    f_equal. lia.
Qed.

Lemma assign_rank_ranks df : rank <$> assign_rank df = ranks_upto (length df).
Proof. apply (imap_set_rank_ranks 0). Qed.

Lemma assign_rank_drop df : drop_rank <$> assign_rank df = drop_rank <$> df.
Proof.
  unfold assign_rank. apply list_eq. intros i.
  rewrite !list_lookup_fmap, list_lookup_imap. by destruct (df !! i).
Qed.

Lemma assign_rank_iso3 df : iso3 <$> assign_rank df = iso3 <$> df.
Proof.
  unfold assign_rank. apply list_eq. intros i.
  rewrite !list_lookup_fmap, list_lookup_imap. by destruct (df !! i).
Qed.

Lemma assign_rank_life df : life <$> assign_rank df = life <$> df.
Proof.
  unfold assign_rank. apply list_eq. intros i.
  rewrite !list_lookup_fmap, list_lookup_imap. by destruct (df !! i).
Qed.

Lemma Sorted_life_ge_lives df1 df2 :
  life <$> df1 = life <$> df2 → Sorted life_ge df2 → Sorted life_ge df1.
Proof.
  intros Heq Hs. revert df1 Heq.
  induction Hs as [|x l Hs IH Hhd]; intros [|y df1] Heq; simplify_eq/=;
    constructor; [by apply IH|].
  destruct Hhd as [|z l Hxz]; destruct df1 as [|w df1]; simplify_eq/=;
    constructor.
  destruct Hxz as (a & b & ? & ? & ?). exists a, b. split_and!; congruence.
Qed.

Lemma assign_rank_notna df :
  Forall (λ r, isna_life r = false) df →
  Forall (λ r, isna_life r = false) (assign_rank df).
Proof.
  rewrite !Forall_lookup. intros Hdf i r. unfold assign_rank.
  rewrite list_lookup_imap. destruct (df !! i) as [r'|] eqn:Hi; [|done].
  intros [= <-]. apply (Hdf i r' Hi).
Qed.

Lemma drop_rank_id (df : DataFrame) :
  Forall (λ r, rank r = None) df → drop_rank <$> df = df.
Proof.
  induction 1 as [|[i l c k] df Hr Hdf IH]; [done|].
  csimpl. rewrite IH. simpl in Hr. by subst k.
Qed.

(** *** The frame before the sort in [interpolate_df] *)

Lemma interp_rows_notna df0 df1 t :
  Forall (λ r, isna_life r = false) (interp_rows df0 df1 t).
Proof.
  apply Forall_forall. intros r. unfold interp_rows.
  rewrite list_elem_of_filter. by intros [? _].
Qed.

Lemma interp_rows_unranked df0 df1 t :
  Forall (λ r, rank r = None) (interp_rows df0 df1 t).
Proof.
  apply Forall_forall. intros r. unfold interp_rows.
  rewrite list_elem_of_filter, list_elem_of_fmap. by intros [_ (m & -> & _)].
Qed.

Lemma interpolate_df_rows s df0 df1 t :
  drop_rank <$> interpolate_df s df0 df1 t ≡ₚ interp_rows df0 df1 t.
Proof.
  unfold interpolate_df. rewrite assign_rank_drop, sort_values_perm.
  by rewrite drop_rank_id by apply interp_rows_unranked.
Qed.

(** ** Ranks of an interpolated frame *)

(** C3.  Whatever the two frames and [t] are, the [rank] column of
    [interpolate_df df0 df1 t] is [1, 2, ..., N] from the first row to
    the last (so no rank is missing or repeated), where [N] is the number
    of rows of the joined frame that have a value; the rows are those
    rows, every one with a value, in descending order of the
    interpolated value. *)
Theorem interpolate_df_ranks (s : Sorter) (df0 df1 : DataFrame) (t : Q) :
  let out := interpolate_df s df0 df1 t in
  rank <$> out = ranks_upto (length (interp_rows df0 df1 t))
  ∧ drop_rank <$> out ≡ₚ interp_rows df0 df1 t
  ∧ Forall (λ r, isna_life r = false) out
  ∧ Sorted life_ge out.
Proof.
  unfold interpolate_df. split_and!.
  - by rewrite assign_rank_ranks, sort_values_length.
  - apply interpolate_df_rows.
  - apply assign_rank_notna. rewrite sort_values_perm.
    apply interp_rows_notna.
  - eapply Sorted_life_ge_lives; [apply assign_rank_life|].
    rewrite sort_values_notna by apply interp_rows_notna.
    apply sort_keyed_rows_sorted.
Qed.

(** *** Ranking a ranked frame again *)

Lemma keyed_fst df : (keyed df).*1 = omap life df.
Proof.
  unfold keyed. induction df as [|r df IH]; [done|]. csimpl.
  destruct (life r); csimpl; by rewrite IH.
Qed.

Lemma keyed_none df : Forall (λ r, isna_life r = true) df → keyed df = [].
Proof.
  unfold keyed. induction 1 as [|r df Hr Hdf IH]; [done|]. csimpl.
  unfold isna_life in Hr. destruct (life r); [done|]. by csimpl.
Qed.

(** The rows of a sorted key list with the ranks [k+1], [k+2], ... *)
Definition rerank (k : nat) (l : list Keyed) : list Keyed :=
  imap (λ i p, (p.1, set_rank (k + i) p.2)) l.

Lemma rerank_fst k l : (rerank k l).*1 = l.*1.
Proof.
  unfold rerank. apply list_eq. intros i.
  rewrite !list_lookup_fmap, list_lookup_imap. by destruct (l !! i).
Qed.

Lemma rerank_snd k l : (rerank k l).*2 = imap (λ i, set_rank (k + i)) l.*2.
Proof.
  unfold rerank. apply list_eq. intros i.
  rewrite list_lookup_fmap, !list_lookup_imap, list_lookup_fmap.
  by destruct (l !! i).
Qed.

Lemma keyed_rerank k l :
  Forall (λ p : Keyed, life p.2 = Some p.1) l →
  keyed (imap (λ i, set_rank (k + i)) l.*2) = rerank k l.
Proof.
  revert k. induction l as [|[v r] l IH]; intros k Hl; [done|].
  apply Forall_cons in Hl as [Hr Hl]. simpl in Hr.
  unfold rerank, keyed. rewrite fmap_cons, !imap_cons. csimpl.
  rewrite Hr. csimpl. f_equal.
  specialize (IH (S k) Hl). unfold rerank, keyed in IH.
  etrans; [|etrans; [exact IH|]].
  - f_equal. apply imap_ext. intros i x _. simpl. f_equal. lia.
  - apply imap_ext. intros i x _. simpl. do 2 f_equal. lia.
Qed.

Lemma set_rank_isna k r : isna_life (set_rank k r) = isna_life r.
Proof. done. Qed.

Lemma Forall_isna_imap b k (df : DataFrame) :
  Forall (λ r, isna_life r = b) df →
  Forall (λ r, isna_life r = b) (imap (λ i, set_rank (k + i)) df).
Proof.
  rewrite !Forall_lookup. intros Hdf i r.
  rewrite list_lookup_imap. destruct (df !! i) as [r'|] eqn:Hi; [|done].
  intros [= <-]. apply (Hdf i r' Hi).
Qed.

Lemma imap_set_rank_twice k (df : DataFrame) :
  imap (λ i, set_rank (k + i)) (imap (λ i, set_rank (k + i)) df)
  = imap (λ i, set_rank (k + i)) df.
Proof.
  apply list_eq. intros i. rewrite !list_lookup_imap.
  by destruct (df !! i).
Qed.

(** The ranked frame in terms of the sorted keys of the raw one. *)
Lemma rank_df_unfold s df :
  let K := sort_keyed s (keyed df) in
  let nas := filter (λ r, isna_life r = true) df in
  rank_df s df
  = (rerank 0 K).*2 ++ imap (λ i, set_rank (length K + i)) nas.
Proof.
  intros K nas. unfold rank_df, assign_rank, sort_values. fold K nas.
  rewrite imap_app, rerank_snd, length_fmap. f_equal.
Qed.

Lemma sorted_keys_life s df :
  Forall (λ p : Keyed, life p.2 = Some p.1) (sort_keyed s (keyed df)).
Proof. rewrite sort_keyed_perm. apply keyed_life. Qed.

Lemma filter_isna_nas (df : DataFrame) b :
  Forall (λ r, isna_life r = b) (filter (λ r, isna_life r = b) df).
Proof.
  apply Forall_forall. intros r. rewrite list_elem_of_filter. by intros [? _].
Qed.

(** Sorting the ranked frame: its keys are the sorted keys of the raw
    frame, and its rows without a value stay behind them. *)
Lemma sort_values_rank_df s df :
  let K := sort_keyed s (keyed df) in
  let nas := filter (λ r, isna_life r = true) df in
  sort_values s (rank_df s df)
  = (sort_keyed s (rerank 0 K)).*2
    ++ imap (λ i, set_rank (length K + i)) nas.
Proof.
  intros K nas. rewrite rank_df_unfold. fold K nas.
  assert (Forall (λ r, isna_life r = false) (rerank 0 K).*2) as Hk.
  { rewrite rerank_snd. apply Forall_isna_imap.
    rewrite Forall_fmap. eapply Forall_impl; [apply sorted_keys_life|].
    intros [v r] Hr. simpl in *. unfold isna_life. by rewrite Hr. }
  assert (Forall (λ r, isna_life r = true)
            (imap (λ i, set_rank (length K + i)) nas)) as Hn.
  { apply Forall_isna_imap, filter_isna_nas. }
  unfold sort_values.
  rewrite keyed_app, (keyed_none _ Hn), app_nil_r.
  rewrite rerank_snd, keyed_rerank by apply sorted_keys_life.
  rewrite filter_app. rewrite <-rerank_snd.
  rewrite (filter_none _ (rerank 0 K).*2), (filter_all _ _ Hn); [done|].
  eapply Forall_impl; [exact Hk|]. simpl. intros r ->. done.
Qed.

(** If the sort leaves the keys of the ranked frame where they are,
    ranking again changes nothing. *)
Lemma rank_df_fixed s df :
  let K := rerank 0 (sort_keyed s (keyed df)) in
  sort_keyed s K = K → rank_df s (rank_df s df) = rank_df s df.
Proof.
  intros K HK. unfold rank_df at 1. rewrite sort_values_rank_df.
  fold K. rewrite HK. rewrite rank_df_unfold. fold K.
  unfold assign_rank. rewrite imap_app. f_equal.
  - unfold K. rewrite rerank_snd. apply (imap_set_rank_twice 0).
  - rewrite length_fmap. unfold K, rerank. rewrite length_imap.
    apply list_eq. intros i. rewrite !list_lookup_imap.
    by destruct (_ !! i).
Qed.

Global Instance key_ge_trans : Transitive key_ge.
Proof. intros x y z Hxy Hyz. unfold key_ge in *. by apply Qle_trans with y.1. Qed.

Lemma Qred_le x y : (x <= y)%Q ↔ (Qred x <= Qred y)%Q.
Proof. rewrite (Qred_correct x), (Qred_correct y). reflexivity. Qed.

(** Two descending lists of values with the same elements agree, value
    by value, once every value is in lowest terms. *)
Lemma sorted_perm_Qred (l1 l2 : list Q) :
  Sorted (flip Qle) l1 → Sorted (flip Qle) l2 → l1 ≡ₚ l2 →
  Qred <$> l1 = Qred <$> l2.
Proof.
  intros H1 H2 Hp.
  assert (Transitive (flip Qle)) by (intros x y z ??; by apply Qle_trans with y).
  assert (Proper (flip Qle ==> flip Qle) Qred) as Hpr.
  { intros x y Hxy. exact (proj1 (Qred_le y x) Hxy). }
  apply (StronglySorted_unique_strong (flip Qle)).
  - intros x1 x2 (a & -> & _)%list_elem_of_fmap (b & -> & _)%list_elem_of_fmap.
    unfold flip. intros Hba Hab.
    apply Qred_complete, Qle_antisym; by apply Qred_le.
  - apply StronglySorted_fmap with (R1 := flip Qle); [done|].
    by apply Sorted_StronglySorted.
  - apply StronglySorted_fmap with (R1 := flip Qle); [done|].
    by apply Sorted_StronglySorted.
  - by rewrite Hp.
Qed.

Lemma Qred_fmap_Forall2 (l1 l2 : list Q) :
  Qred <$> l1 = Qred <$> l2 → Forall2 Qeq l1 l2.
Proof.
  revert l2. induction l1 as [|x l1 IH]; intros [|y l2] Heq;
    simplify_eq/=; constructor; [|by apply IH].
  rewrite <-(Qred_correct x), <-(Qred_correct y). match goal with H : Qred _ = Qred _ |- _ => by rewrite H end.
Qed.

Lemma Sorted_keys (l : list Keyed) : Sorted key_ge l → Sorted (flip Qle) l.*1.
Proof. apply Sorted_fmap. by intros x y Hxy. Qed.

Lemma Sorted_of_keys (l : list Keyed) : Sorted (flip Qle) l.*1 → Sorted key_ge l.
Proof.
  induction l as [|x l IH]; [constructor|]. rewrite fmap_cons.
  intros [Hs Hhd]%Sorted_inv. constructor; [auto|].
  destruct l; constructor. by apply HdRel_inv in Hhd.
Qed.

Lemma rerank_sorted k (l : list Keyed) : Sorted key_ge l → Sorted key_ge (rerank k l).
Proof.
  intros Hs. apply Sorted_of_keys. rewrite rerank_fst. by apply Sorted_keys.
Qed.

(** When no value occurs twice, a sorted list of keys is the only sorted
    arrangement of its elements. *)
Lemma sort_keyed_tie_free s (l : list Keyed) :
  NoDup (Qred <$> l.*1) → Sorted key_ge l → sort_keyed s l = l.
Proof.
  intros Hnd Hs. apply (StronglySorted_unique_strong key_ge).
  - intros x1 x2 Hx1 Hx2 H12 H21. rewrite sort_keyed_perm in Hx1.
    apply list_elem_of_lookup in Hx1 as [i Hi].
    apply list_elem_of_lookup in Hx2 as [j Hj].
    assert (i = j) as ->; [|congruence].
    eapply NoDup_lookup; [exact Hnd| |].
    + rewrite !list_lookup_fmap, Hi. reflexivity.
    + rewrite !list_lookup_fmap, Hj. simpl. f_equal.
      apply Qred_complete. by apply Qle_antisym.
  - apply Sorted_StronglySorted; [apply _|]. apply sort_keyed_sorted.
  - by apply Sorted_StronglySorted; [apply _|].
  - apply sort_keyed_perm.
Qed.

Lemma keyed_lives (l : list Keyed) :
  Forall (λ p : Keyed, life p.2 = Some p.1) l → life <$> l.*2 = Some <$> l.*1.
Proof. induction 1 as [|[v r] l Hr Hl IH]; [done|]. csimpl. by f_equal. Qed.

Lemma rerank_life k (l : list Keyed) :
  Forall (λ p : Keyed, life p.2 = Some p.1) l →
  Forall (λ p : Keyed, life p.2 = Some p.1) (rerank k l).
Proof.
  rewrite !Forall_lookup. intros Hl i p. unfold rerank.
  rewrite list_lookup_imap. destruct (l !! i) as [q|] eqn:Hi; [|done].
  intros [= <-]. apply (Hl i q Hi).
Qed.

Lemma rank_df_length s df : length (rank_df s df) = length df.
Proof. unfold rank_df. by rewrite assign_rank_length, sort_values_length. Qed.

(** ** Ranking twice *)

(** With the stable sort, ranking a ranked frame again gives the same
    frame. *)
Lemma rank_df_stable_idem df :
  rank_df stable_sorter (rank_df stable_sorter df) = rank_df stable_sorter df.
Proof.
  apply rank_df_fixed. simpl. apply isort_id, Sorted_key_geb, rerank_sorted.
  apply (sort_keyed_sorted stable_sorter).
Qed.

(** For every sort within the contract, ranking a ranked frame again
    keeps the [rank] column and the value found at every rank; the whole
    frame is the same when no value occurs twice.  What becomes of rows
    with equal values is left to the library's sort. *)
Lemma rank_df_twice (s : Sorter) (df : DataFrame) :
  let R := rank_df s df in
  rank <$> rank_df s R = rank <$> R
  ∧ Forall2 (option_Forall2 Qeq) (life <$> rank_df s R) (life <$> R)
  ∧ (NoDup (Qred <$> omap life df) → rank_df s R = R).
Proof.
  intros R. split_and!.
  - unfold R, rank_df. by rewrite !assign_rank_ranks, !sort_values_length,
      assign_rank_length, sort_values_length.
  - unfold rank_df at 1. rewrite assign_rank_life. unfold R.
    rewrite sort_values_rank_df, rank_df_unfold.
    set (K := rerank 0 (sort_keyed s (keyed df))).
    assert (Forall (λ p : Keyed, life p.2 = Some p.1) K) as HK
      by apply rerank_life, sorted_keys_life.
    rewrite !fmap_app. apply Forall2_app; [|done].
    rewrite !keyed_lives; [|done|by rewrite sort_keyed_perm].
    apply Forall2_fmap, Forall2_impl with Qeq; [|by constructor].
    apply Qred_fmap_Forall2, sorted_perm_Qred.
    + apply Sorted_keys, sort_keyed_sorted.
    + apply Sorted_keys, rerank_sorted, sort_keyed_sorted.
    + by rewrite sort_keyed_perm.
  - intros Hnd. apply rank_df_fixed, sort_keyed_tie_free.
    + by rewrite rerank_fst, sort_keyed_perm, keyed_fst.
    + apply rerank_sorted, sort_keyed_sorted.
Qed.

(** *** Looking a row up by its identity *)

Lemma row_of_nil iso : row_of [] iso = None.
Proof. done. Qed.

Lemma row_of_cons r df iso :
  row_of (r :: df) iso = if decide (iso3 r = iso) then Some r else row_of df iso.
Proof.
  unfold row_of. destruct (decide (iso3 r = iso)) as [Heq|Hne].
  - rewrite filter_cons_True; [done|]. by rewrite bool_decide_eq_true.
  - rewrite filter_cons_False; [done|]. by rewrite bool_decide_eq_true.
Qed.

Lemma row_of_Some df iso r : row_of df iso = Some r → r ∈ df ∧ iso3 r = iso.
Proof.
  induction df as [|x df IH]; [done|]. rewrite row_of_cons.
  case_decide.
  - intros [= <-]. split; [left|done].
  - intros [??]%IH. split; [by right|done].
Qed.

Lemma row_of_None df iso : row_of df iso = None ↔ iso ∉ keys df.
Proof.
  unfold keys. induction df as [|x df IH].
  - split; [|done]. intros _. apply not_elem_of_nil.
  - rewrite row_of_cons, fmap_cons, not_elem_of_cons. case_decide.
    + split; [done|]. intros [? _]. congruence.
    + rewrite IH. split; [|by intros [_ ?]]. intros ?. split; [congruence|done].
Qed.

Lemma row_of_NoDup df r : NoDup (keys df) → r ∈ df → row_of df (iso3 r) = Some r.
Proof.
  unfold keys. induction df as [|x df IH]; intros Hnd Hr.
  - by apply elem_of_nil in Hr.
  - rewrite fmap_cons in Hnd. apply NoDup_cons in Hnd as [Hx Hnd].
    rewrite row_of_cons. apply elem_of_cons in Hr as [->|Hr].
    + by rewrite decide_True.
    + rewrite decide_False; [by apply IH|].
      intros Heq. apply Hx. rewrite Heq. by apply list_elem_of_fmap_2.
Qed.

Lemma row_of_perm df1 df2 iso :
  NoDup (keys df1) → df1 ≡ₚ df2 → row_of df1 iso = row_of df2 iso.
Proof.
  intros Hnd Hp. destruct (row_of df1 iso) as [r|] eqn:H1.
  - apply row_of_Some in H1 as [Hr <-]. symmetry. apply row_of_NoDup.
    + unfold keys in *. by rewrite <-Hp.
    + by rewrite <-Hp.
  - symmetry. apply row_of_None. apply row_of_None in H1.
    unfold keys in *. by rewrite <-Hp.
Qed.

Lemma row_of_fmap (f : Row → Row) df iso :
  (∀ r, iso3 (f r) = iso3 r) → row_of (f <$> df) iso = f <$> row_of df iso.
Proof.
  intros Hf. induction df as [|x df IH]; [done|].
  rewrite fmap_cons, !row_of_cons, Hf. by case_decide.
Qed.

Lemma row_of_app df1 df2 iso :
  row_of (df1 ++ df2) iso
  = match row_of df1 iso with Some r => Some r | None => row_of df2 iso end.
Proof.
  induction df1 as [|x df1 IH]; [done|].
  rewrite <-app_comm_cons, !row_of_cons. by case_decide.
Qed.

Lemma row_of_filter (P : Row → Prop) `{∀ r, Decision (P r)} df iso :
  NoDup (keys df) →
  row_of (filter P df) iso
  = row_of df iso ≫= λ r, if decide (P r) then Some r else None.
Proof.
  unfold keys. induction df as [|x df IH]; intros Hnd; [done|].
  rewrite fmap_cons in Hnd. apply NoDup_cons in Hnd as [Hx Hnd].
  rewrite row_of_cons. destruct (decide (iso3 x = iso)) as [<-|Hne]; simpl.
  - destruct (decide (P x)).
    + rewrite filter_cons_True by done. rewrite row_of_cons.
      by rewrite decide_True.
    + rewrite filter_cons_False by done. rewrite IH by done.
      by rewrite (proj2 (row_of_None df (iso3 x)) Hx).
  - destruct (decide (P x)).
    + rewrite filter_cons_True by done. rewrite row_of_cons.
      rewrite decide_False by done. by apply IH.
    + rewrite filter_cons_False by done. by apply IH.
Qed.

Lemma keys_row_of df iso : iso ∈ keys df ↔ is_Some (row_of df iso).
Proof.
  rewrite <-not_eq_None_Some, row_of_None.
  destruct (decide (iso ∈ keys df)); naive_solver.
Qed.

(** *** The outer join of two frames with unique identities *)

Lemma filter_key df iso :
  NoDup (keys df) →
  filter (λ r, bool_decide (iso3 r = iso) = true) df = option_list (row_of df iso).
Proof.
  unfold keys. induction df as [|x df IH]; intros Hnd; [done|].
  rewrite fmap_cons in Hnd. apply NoDup_cons in Hnd as [Hx Hnd].
  rewrite row_of_cons. destruct (decide (iso3 x = iso)) as [<-|Hne].
  - rewrite filter_cons_True by by rewrite bool_decide_eq_true.
    rewrite IH by done. by rewrite (proj2 (row_of_None df (iso3 x)) Hx).
  - rewrite filter_cons_False by by rewrite bool_decide_eq_true.
    by apply IH.
Qed.

(** The joined row of a row of the left frame. *)
Definition joined_left (b : DataFrame) (ra : Row) : Merged :=
  mkMerged (iso3 ra) (life ra) (continent ra) (value_of b (iso3 ra)).

(** The joined row of a row that only the right frame has. *)
Definition joined_right (rb : Row) : Merged :=
  mkMerged (iso3 rb) None None (life rb).

Lemma merge_left_NoDup b ra :
  NoDup (keys b) → merge_left b ra = [joined_left b ra].
Proof.
  intros Hnd. unfold merge_left, joined_left, value_of.
  rewrite filter_key by done. by destruct (row_of b (iso3 ra)).
Qed.

Lemma bind_merge_left a b :
  NoDup (keys b) → a ≫= merge_left b = joined_left b <$> a.
Proof.
  intros Hnd. induction a as [|ra a IH]; [done|].
  csimpl. by rewrite IH, merge_left_NoDup.
Qed.

(** The rows of the joined frame in the order of the two inputs, with
    the interpolated value, before rows without a value are dropped. *)
Definition joined_rows (a b : DataFrame) (t : Q) : DataFrame :=
  ((interp_row t ∘ joined_left b) <$> a)
  ++ ((interp_row t ∘ joined_right)
        <$> filter (λ rb, bool_decide (iso3 rb ∉ iso3 <$> a) = true) b).

Lemma merge_outer_joined a b t :
  NoDup (keys b) → interp_row t <$> merge_outer a b ≡ₚ joined_rows a b t.
Proof.
  intros Hnd. unfold merge_outer, joined_rows, merge_right_only.
  rewrite isort_perm, fmap_app, bind_merge_left by done.
  by rewrite <-!list_fmap_compose.
Qed.

Lemma joined_rows_keys a b t :
  keys (joined_rows a b t)
  = keys a ++ keys (filter (λ rb, bool_decide (iso3 rb ∉ iso3 <$> a) = true) b).
Proof.
  unfold keys, joined_rows. rewrite fmap_app, <-!list_fmap_compose. done.
Qed.

Lemma NoDup_keys_filter (P : Row → Prop) `{∀ r, Decision (P r)} df :
  NoDup (keys df) → NoDup (keys (filter P df)).
Proof.
  unfold keys. induction df as [|x df IH]; [done|]. rewrite fmap_cons.
  intros [Hx Hdf]%NoDup_cons. destruct (decide (P x)).
  - rewrite filter_cons_True, fmap_cons by done. apply NoDup_cons.
    split; [|by apply IH]. rewrite list_elem_of_fmap.
    intros (r & Hr & [_ ?]%list_elem_of_filter). apply Hx.
    rewrite Hr. by apply list_elem_of_fmap_2.
  - rewrite filter_cons_False by done. by apply IH.
Qed.

Lemma joined_rows_NoDup a b t :
  NoDup (keys a) → NoDup (keys b) → NoDup (keys (joined_rows a b t)).
Proof.
  intros Ha Hb. rewrite joined_rows_keys. apply NoDup_app. split_and!.
  - done.
  - intros iso Hin. unfold keys. rewrite list_elem_of_fmap.
    intros (rb & -> & [Hrb _]%list_elem_of_filter).
    by apply bool_decide_eq_true in Hrb.
  - by apply NoDup_keys_filter.
Qed.

Lemma joined_rows_unranked a b t :
  Forall (λ r, rank r = None) (joined_rows a b t).
Proof.
  unfold joined_rows. apply Forall_app. split; by apply Forall_fmap, Forall_true.
Qed.

(** The result row of an identity, were it to have the value [v]. *)
Definition result_row (a : DataFrame) (iso : string) (v : Q) : Row :=
  mkRow iso (Some v) (Some (default "Other"%string (category_of a iso))) None.

Lemma row_of_joined_rows a b t iso :
  NoDup (keys a) → NoDup (keys b) →
  row_of (joined_rows a b t) iso
    ≫= (λ r, if decide (isna_life r = false) then Some r else None)
  = result_row a iso <$> interp_life (value_of a iso) (value_of b iso) t.
Proof.
  intros Ha Hb. unfold joined_rows. rewrite row_of_app, !row_of_fmap by done.
  unfold result_row, category_of, value_of.
  destruct (row_of a iso) as [ra|] eqn:Hra; simpl.
  - apply row_of_Some in Hra as [_ <-].
    unfold interp_row, isna_life, joined_left, value_of. simpl.
    by destruct (interp_life _ _ _).
  - rewrite row_of_filter by done.
    destruct (row_of b iso) as [rb|] eqn:Hrb; simpl; [|done].
    apply row_of_Some in Hrb as [_ Hiso].
    rewrite decide_True; simpl.
    + unfold interp_row, isna_life. simpl. rewrite Hiso.
      by destruct (interp_life _ _ _).
    + apply bool_decide_eq_true. rewrite Hiso. by apply row_of_None.
Qed.

(** The row of an identity in the interpolated frame, up to its rank. *)
Lemma row_of_interpolate_df s a b t iso :
  NoDup (keys a) → NoDup (keys b) →
  drop_rank <$> row_of (interpolate_df s a b t) iso
  = result_row a iso <$> interp_life (value_of a iso) (value_of b iso) t.
Proof.
  intros Ha Hb. rewrite <-row_of_joined_rows by done.
  rewrite <-row_of_fmap by done.
  pose proof (joined_rows_NoDup a b t Ha Hb) as Hnd.
  assert (interp_rows a b t
          ≡ₚ filter (λ r, isna_life r = false) (joined_rows a b t)) as Hp.
  { unfold interp_rows. by rewrite merge_outer_joined. }
  assert (NoDup (keys (filter (λ r, isna_life r = false) (joined_rows a b t))))
    as Hnd'.
  { by apply NoDup_keys_filter. }
  rewrite <-row_of_filter by done.
  pose proof (interpolate_df_rows s a b t) as Hout.
  rewrite Hp in Hout. symmetry. apply row_of_perm; [done|]. by symmetry.
Qed.

Lemma value_of_interpolate_df s a b t iso :
  NoDup (keys a) → NoDup (keys b) →
  value_of (interpolate_df s a b t) iso
  = interp_life (value_of a iso) (value_of b iso) t.
Proof.
  intros Ha Hb. pose proof (row_of_interpolate_df s a b t iso Ha Hb) as Hrow.
  unfold value_of at 1.
  destruct (row_of (interpolate_df s a b t) iso) as [r|];
    destruct (interp_life _ _ _) as [v|]; simplify_eq/=; [|done].
  unfold drop_rank, result_row in Hrow. by simplify_eq.
Qed.

Lemma year_2000_NoDup : NoDup (keys year_2000).
Proof. apply (bool_decide_unpack _). vm_compute. exact I. Qed.

Lemma year_2001_NoDup : NoDup (keys year_2001).
Proof. apply (bool_decide_unpack _). vm_compute. exact I. Qed.

(** ** Values of an interpolated frame *)

(** C2.  For frames in which no identity occurs twice and for every [t]
    (in particular for [t] in [[0,1]]), the value of an identity in
    [interpolate_df df0 df1 t] is [v0 + (v1 - v0) * t] when both frames
    have a value for it, the one known value when only one frame has,
    and the identity has a row in the result unless neither frame has a
    value for it. *)
Theorem interpolate_df_values (s : Sorter) (df0 df1 : DataFrame) (t : Q)
    (iso : string) :
  NoDup (keys df0) → NoDup (keys df1) →
  value_of (interpolate_df s df0 df1 t) iso
  = interpolate_value_spec (value_of df0 iso) (value_of df1 iso) t
  ∧ (iso ∈ keys (interpolate_df s df0 df1 t)
     ↔ is_Some (value_of df0 iso) ∨ is_Some (value_of df1 iso)).
Proof.
  intros H0 H1. split.
  - rewrite value_of_interpolate_df by done.
    by destruct (value_of df0 iso), (value_of df1 iso).
  - rewrite keys_row_of, <-(fmap_is_Some drop_rank).
    rewrite row_of_interpolate_df, fmap_is_Some by done.
    destruct (value_of df0 iso), (value_of df1 iso); simpl;
      rewrite ?is_Some_alt; tauto.
Qed.

Lemma interpolate_df_values_witness :
  value_of (interpolate_df stable_sorter year_2000 year_2001 (1#2)) "JPN"
  = Some (81 + (82 - 81) * (1#2))%Q.
Proof.
  exact (proj1 (interpolate_df_values stable_sorter year_2000 year_2001
                  (1#2) "JPN" year_2000_NoDup year_2001_NoDup)).
Defined.

(** C8.  For frames in which no identity occurs twice, an identity that
    has a value in both has, in [interpolate_df df0 df1 0], a value equal
    to that of [df0], and in [interpolate_df df0 df1 1] a value equal to
    that of [df1] (equal as rationals; rounding is outside the model). *)
Theorem interpolate_df_endpoints (s : Sorter) (df0 df1 : DataFrame)
    (iso : string) (v0 v1 : Q) :
  NoDup (keys df0) → NoDup (keys df1) →
  value_of df0 iso = Some v0 → value_of df1 iso = Some v1 →
  (∃ v, value_of (interpolate_df s df0 df1 0) iso = Some v ∧ (v == v0)%Q)
  ∧ (∃ v, value_of (interpolate_df s df0 df1 1) iso = Some v ∧ (v == v1)%Q).
Proof.
  intros H0 H1 Hv0 Hv1.
  rewrite !value_of_interpolate_df, Hv0, Hv1 by done. simpl.
  split; eexists; (split; [reflexivity|ring]).
Qed.

Lemma interpolate_df_endpoints_witness :
  (∃ v, value_of (interpolate_df stable_sorter year_2000 year_2001 0) "USA"
        = Some v ∧ (v == 77)%Q)
  ∧ (∃ v, value_of (interpolate_df stable_sorter year_2000 year_2001 1) "USA"
          = Some v ∧ (v == 78)%Q).
Proof.
  apply (interpolate_df_endpoints stable_sorter year_2000 year_2001 "USA");
    [apply year_2000_NoDup|apply year_2001_NoDup|reflexivity|reflexivity].
Defined.

(** ** Categories of an interpolated frame *)

(** C7, as the code has it.  The second frame is cut down to [iso3] and
    [life] before the join, so its categories never reach the result:
    for frames in which no identity occurs twice, an identity of the
    result has the category it has in [df0], and ["Other"] when [df0]
    has no row or no category for it. *)
Theorem interpolate_df_category (s : Sorter) (df0 df1 : DataFrame) (t : Q)
    (iso : string) :
  NoDup (keys df0) → NoDup (keys df1) →
  iso ∈ keys (interpolate_df s df0 df1 t) →
  category_of (interpolate_df s df0 df1 t) iso
  = Some (default "Other"%string (category_of df0 iso)).
Proof.
  intros H0 H1 Hin.
  pose proof (row_of_interpolate_df s df0 df1 t iso H0 H1) as Hrow.
  apply keys_row_of in Hin as [r Hr]. unfold category_of at 1.
  rewrite Hr in *. destruct (interp_life _ _ _); simplify_eq/=.
  unfold drop_rank, result_row in Hrow. by simplify_eq.
Qed.

Lemma interpolate_df_category_witness :
  category_of (interpolate_df stable_sorter year_2000 year_2001 (1#2)) "AUS"
  = Some "Other"%string.
Proof.
  apply (interpolate_df_category stable_sorter year_2000 year_2001 (1#2) "AUS");
    [apply year_2000_NoDup|apply year_2001_NoDup|].
  apply (bool_decide_unpack _). vm_compute. exact I.
Defined.

(** The claim as the specification has it fails: "AUS" is only in the
    second frame, with the category "Oceania", and the result gives it
    the category "Other". *)
Lemma interpolate_df_category_not_from_df1 :
  category_of (interpolate_df stable_sorter year_2000 year_2001 (1#2)) "AUS"
  ≠ Some (category_spec year_2000 year_2001 "AUS").
Proof. vm_compute. discriminate. Qed.

(** *** The dictionary of previous ranks *)

Lemma prev_rank_of_lookup_from (m0 : gmap string (option Z)) df iso :
  NoDup (keys df) →
  foldl (λ m r, <[iso3 r := rank r]> m) m0 df !! iso
  = match row_of df iso with Some r => Some (rank r) | None => m0 !! iso end.
Proof.
  unfold keys. revert m0. induction df as [|x df IH]; intros m0 Hnd; [done|].
  rewrite fmap_cons in Hnd. apply NoDup_cons in Hnd as [Hx Hnd].
  simpl. rewrite IH, row_of_cons by done.
  destruct (decide (iso3 x = iso)) as [<-|Hne].
  - rewrite (proj2 (row_of_None df (iso3 x)) Hx). by rewrite lookup_insert_eq.
  - destruct (row_of df iso); [done|]. by rewrite lookup_insert_ne.
Qed.

Lemma prev_rank_of_lookup df iso :
  NoDup (keys df) → prev_rank_of df !! iso = rank <$> row_of df iso.
Proof.
  intros Hnd. unfold prev_rank_of. rewrite prev_rank_of_lookup_from by done.
  by destruct (row_of df iso).
Qed.

Lemma prev_rank_of_ranked df iso p :
  NoDup (keys df) → ranked df →
  prev_rank_of df !! iso = Some p ↔ ∃ k, p = Some k ∧ rank_of df iso = Some k.
Proof.
  intros Hnd Hr. rewrite prev_rank_of_lookup by done. unfold rank_of.
  destruct (row_of df iso) as [r|] eqn:Hrow; simpl.
  - apply row_of_Some in Hrow as [Hin _].
    destruct (proj1 (Forall_forall _ _) Hr r Hin) as [k Hk]. rewrite Hk.
    split; [intros [= <-]; by exists k|by intros (k' & -> & [= ->])].
  - split; [done|by intros (k & _ & ?)].
Qed.

(** What the loop over the visible rows adds to [moved]. *)
Lemma moved_loop_spec prev alpha (M0 : gset string) df_bar :
  ranked df_bar → (∀ iso pr, prev !! iso = Some pr → is_Some pr) →
  ∃ M, moved_loop prev alpha M0 df_bar = Some M
    ∧ ∀ iso, iso ∈ M ↔
        iso ∈ M0 ∨ ∃ r p c, r ∈ df_bar ∧ iso3 r = iso
                            ∧ prev !! iso = Some (Some p) ∧ rank r = Some c
                            ∧ alpha ≤ Z.abs (p - c).
Proof.
  intros Hbar Hprev. revert M0.
  induction Hbar as [|x df_bar [c Hc] Hbar IH]; intros M0.
  - exists M0. split; [done|]. intros iso. split; [by left|].
    intros [?|(r & ? & ? & []%elem_of_nil & _)]; done.
  - simpl. unfold moved_step. rewrite Hc.
    destruct (prev !! iso3 x) as [pr|] eqn:Hpx; simpl.
    + destruct (Hprev _ _ Hpx) as [p ->]. simpl.
      destruct (IH (if bool_decide (alpha ≤ Z.abs (p - c))
                    then {[iso3 x]} ∪ M0 else M0)) as (M & -> & HM).
      exists M. split; [done|]. intros iso. rewrite HM. clear HM IH.
      case_bool_decide as Hle.
      * rewrite elem_of_union, elem_of_singleton. split.
        -- intros [[->|?]|(r & p' & c' & Hr & ?)]; [|by left|].
           ++ right. exists x, p, c. split_and!; try done. by left.
           ++ right. exists r, p', c'. split_and!; try tauto. by right.
        -- intros [?|(r & p' & c' & [->|Hr]%elem_of_cons & Hrest)]; [tauto| |].
           ++ left. left. by destruct Hrest as [<- _].
           ++ right. by exists r, p', c'.
      * split.
        -- intros [?|(r & p' & c' & Hr & ?)]; [by left|].
           right. exists r, p', c'. split_and!; try tauto. by right.
        -- intros [?|(r & p' & c' & [->|Hr]%elem_of_cons & Hrest)]; [tauto| |].
           ++ destruct Hrest as (<- & Hp & Hc' & Hge). simplify_eq. done.
           ++ right. by exists r, p', c'.
    + destruct (IH M0) as (M & -> & HM). exists M. split; [done|].
      intros iso. rewrite HM. clear HM IH. split.
      * intros [?|(r & p' & c' & Hr & ?)]; [by left|].
        right. exists r, p', c'. split_and!; try tauto. by right.
      * intros [?|(r & p' & c' & [->|Hr]%elem_of_cons & Hrest)]; [tauto| |].
        -- destruct Hrest as (<- & Hp & _). congruence.
        -- right. by exists r, p', c'.
Qed.

Lemma df_bar_of_ranked s df_year top_n :
  ranked df_year → ranked (df_bar_of s df_year top_n).
Proof.
  unfold ranked, df_bar_of. intros Hr. apply Forall_take.
  by rewrite sort_values_perm.
Qed.

(** ** Movement detection *)

(** The block that computes [moved], taken by itself.  For ranked
    frames, the previous one without a repeated identity, it marks
    exactly the identities of the visible rows that have a rank in the
    previous frame which differs from the current one by at least
    [alpha]. *)
Lemma detect_moved_ranked (s : Sorter) (df_year df_prev : DataFrame)
    (alpha : Z) (top_n : nat) :
  NoDup (keys df_prev) → ranked df_year → ranked df_prev →
  ∃ moved,
    detect_moved (df_bar_of s df_year top_n) (Some df_prev) alpha = Some moved
    ∧ (∀ iso, iso ∈ moved ↔
         ∃ r p c, r ∈ df_bar_of s df_year top_n ∧ iso3 r = iso
                  ∧ rank_of df_prev iso = Some p ∧ rank r = Some c
                  ∧ alpha ≤ Z.abs (p - c))
    ∧ (∀ iso, iso ∉ keys df_prev → iso ∉ moved).
Proof.
  intros Hnd Hyear Hprev.
  unfold detect_moved.
  assert (∀ iso pr, prev_rank_of df_prev !! iso = Some pr → is_Some pr)
    as Hpr.
  { intros iso pr Hl. apply prev_rank_of_ranked in Hl as (k & -> & _); done. }
  destruct (moved_loop_spec (prev_rank_of df_prev) alpha ∅
              (df_bar_of s df_year top_n)
              (df_bar_of_ranked s df_year top_n Hyear) Hpr)
    as (M & HM & Hspec).
  assert (∀ iso, iso ∈ M ↔
            ∃ r p c, r ∈ df_bar_of s df_year top_n ∧ iso3 r = iso
                     ∧ rank_of df_prev iso = Some p ∧ rank r = Some c
                     ∧ alpha ≤ Z.abs (p - c)) as Hiff.
  { intros iso. rewrite Hspec. split.
    - intros [[]%not_elem_of_empty|(r & p & c & Hr & Hi & Hp & Hrest)].
      exists r, p, c. split_and!; try tauto.
      apply prev_rank_of_ranked in Hp as (k & [= <-] & ?); done.
    - intros (r & p & c & Hr & Hi & Hp & Hrest). right.
      exists r, p, c. split_and!; try tauto.
      apply prev_rank_of_ranked; [done..|]. by exists p. }
  assert (∀ iso, iso ∉ keys df_prev → iso ∈ M → False) as Habsent.
  { intros iso Hout (r & p & c & _ & _ & Hp & _)%Hiff.
    apply row_of_None in Hout. unfold rank_of in Hp. by rewrite Hout in Hp. }
  destruct df_prev as [|x df_prev].
  + exists ∅. split_and!; [done| |set_solver].
    intros iso. split; [set_solver|].
    by intros (r & p & c & _ & _ & ? & _).
  + exists M. by split_and!.
Qed.

Lemma previous_ABC_NoDup : NoDup (keys previous_ABC).
Proof. apply (bool_decide_unpack _). vm_compute. exact I. Qed.

Lemma previous_ABC_ranked : ranked previous_ABC.
Proof. repeat constructor; by eexists. Qed.

Lemma current_ABC_ranked : ranked current_ABC.
Proof. repeat constructor; by eexists. Qed.

(** The block on the example: the previous ranks A:1, B:2, C:3, the
    current ranks A:3, B:2, C:1 and [alpha = 2]. *)
Lemma detect_moved_ABC (s : Sorter) :
  detect_moved (df_bar_of s current_ABC 40) (Some previous_ABC) 2
  = Some {["A"; "C"]}.
Proof.
  destruct (detect_moved_ranked s current_ABC previous_ABC 2 40
              previous_ABC_NoDup current_ABC_ranked previous_ABC_ranked)
    as (M & -> & Hiff & _).
  f_equal. apply set_eq. intros iso. rewrite Hiff. clear Hiff.
  assert (∀ r, r ∈ df_bar_of s current_ABC 40 ↔ r ∈ current_ABC) as Hbar.
  { intros r. unfold df_bar_of.
    rewrite take_ge by (rewrite sort_values_length; simpl; lia).
    by rewrite sort_values_perm. }
  rewrite elem_of_union, !elem_of_singleton. split.
  - intros (r & p & c & Hr%Hbar & <- & Hp & Hc & Hge).
    unfold current_ABC in Hr.
    rewrite !elem_of_cons, elem_of_nil in Hr.
    destruct Hr as [->|[->|[->|[]]]]; simpl in *.
    + by right.
    + vm_compute in Hp. simplify_eq. lia.
    + by left.
  - intros [->| ->].
    + exists (mkRow "A" (Some 81%Q) (Some "Asia"%string) (Some 3)), 1, 3.
      split_and!; [|done|by vm_compute|done|lia].
      apply Hbar. unfold current_ABC. rewrite !elem_of_cons. tauto.
    + exists (mkRow "C" (Some 83%Q) (Some "Asia"%string) (Some 1)), 3, 1.
      split_and!; [|done|by vm_compute|done|lia].
      apply Hbar. unfold current_ABC. rewrite !elem_of_cons. tauto.
Qed.

(** C4.  In the one revision that has the movement detection,
    [life_map_bar_anim_20260226225458.py], every call of [render_frame]
    raises [UnboundLocalError] for [fig] at the first [fig.add_trace]
    (line 155), before the block that computes [moved] (lines 187-194) is
    reached: whatever the frames, the threshold and [top_n] are, no set
    of moved identities is computed. *)
Theorem render_frame_unbound_fig (s : Sorter) (df_year : DataFrame)
    (df_prev : option DataFrame) (alpha : Z) (top_n : nat) :
  Rev20260226.render_frame s df_year df_prev alpha top_n
  = inl (Rev20260226.UnboundLocalError "fig").
Proof. reflexivity. Qed.

(** *** The fetcher and the world *)

Lemma mapM_cons {A B} (f : A → M B) x l w :
  mapM f (x :: l) w
  = ((f x w).1 :: (mapM f l (f x w).2).1, (mapM f l (f x w).2).2).
Proof.
  simpl. unfold bind, ret. destruct (f x w) as [y w1]. simpl.
  by destruct (mapM f l w1).
Qed.

Section FetchFacts.
Variable cm : gmap string string.
Variable api : nat → string → Z → Response.

(** One request and what is made of the answer. *)
Definition ask (g : string → Response → option Row) (year : Z) (code : string)
  : M (option Row) :=
  resp ←ᴹ http_get api code year;; ret (g code resp).

Lemma ask_eq g year code w :
  ask g year code w
  = (g code (api (length (requests w)) code year),
     mkWorld (cache w) (requests w ++ [(code, year)])).
Proof. done. Qed.

Lemma mapM_ask_world g year codes w :
  cache (mapM (ask g year) codes w).2 = cache w
  ∧ requests (mapM (ask g year) codes w).2
    = requests w ++ ((λ code, (code, year)) <$> codes).
Proof.
  revert w. induction codes as [|c codes IH]; intros w.
  - simpl. by rewrite app_nil_r.
  - rewrite mapM_cons, ask_eq. simpl.
    destruct (IH (mkWorld (cache w) (requests w ++ [(c, year)]))) as [Hc Hr].
    split; [done|]. rewrite Hr. simpl. by rewrite <-app_assoc.
Qed.

(** The rows fetched do not depend on the cache. *)
Lemma mapM_ask_cache g year codes c c' q :
  (mapM (ask g year) codes (mkWorld c q)).1
  = (mapM (ask g year) codes (mkWorld c' q)).1.
Proof.
  revert q. induction codes as [|code codes IH]; intros q; [done|].
  rewrite !mapM_cons, !ask_eq. simpl. f_equal. apply IH.
Qed.

Lemma fetch_rows_world year w :
  cache (fetch_rows cm api year w).2 = cache w
  ∧ requests (fetch_rows cm api year w).2
    = requests w ++ fetcher_requests year.
Proof.
  unfold fetch_rows, fetcher_requests.
  generalize some_country_codes. intros codes.
  unfold bind at 1 3, ret at 1 3. fold (ask (row_of_response cm) year).
  pose proof (mapM_ask_world (row_of_response cm) year codes w) as H.
  by destruct (mapM _ codes w).
Qed.

Lemma fetch_rows_cache year c c' q :
  (fetch_rows cm api year (mkWorld c q)).1
  = (fetch_rows cm api year (mkWorld c' q)).1.
Proof.
  unfold fetch_rows. generalize some_country_codes. intros codes.
  unfold bind at 1 3, ret at 1 3. fold (ask (row_of_response cm) year).
  pose proof (mapM_ask_cache (row_of_response cm) year codes c c' q) as H.
  do 2 destruct (mapM _ codes _). simpl in *. by rewrite H.
Qed.

Lemma fetch_and_save_eq year w :
  fetch_and_save cm api year w
  = let r := fetch_rows cm api year w in
    if empty r.1 then r
    else (r.1, mkWorld (<[year := r.1]> (cache r.2)) (requests r.2)).
Proof.
  unfold fetch_and_save, bind at 1.
  destruct (fetch_rows cm api year w) as [df w1]. cbv zeta. cbn [fst snd].
  destruct (empty df); [done|]. unfold bind, to_csv, ret. done.
Qed.

End FetchFacts.

Lemma fetcher_requests_nonempty year : fetcher_requests year ≠ [].
Proof. unfold fetcher_requests. discriminate. Qed.

Lemma fetch_year_df_hit cm api year w df :
  cache w !! year = Some df → empty df = false →
  fetch_year_df cm api year w = (df, w).
Proof. intros Hc He. unfold fetch_year_df. by rewrite Hc, He. Qed.

Lemma fetch_year_df_miss cm api year w :
  (∀ df, cache w !! year = Some df → empty df = true) →
  fetch_year_df cm api year w = fetch_and_save cm api year w.
Proof.
  intros Hc. unfold fetch_year_df.
  destruct (cache w !! year) as [df|]; [|done]. by rewrite (Hc df).
Qed.

(** What a call that goes to the fetcher does to the world. *)
Lemma fetch_and_save_world cm api year w :
  let r := fetch_and_save cm api year w in
  r.1 = (fetch_rows cm api year w).1
  ∧ requests r.2 = requests w ++ fetcher_requests year
  ∧ cache r.2 = if empty r.1 then cache w else <[year := r.1]> (cache w).
Proof.
  cbv zeta. rewrite fetch_and_save_eq. cbv zeta.
  destruct (fetch_rows_world cm api year w) as [Hc Hr].
  destruct (fetch_rows cm api year w) as [df w1]. cbn [fst snd] in *.
  destruct (empty df) eqn:He; cbn [fst snd cache requests]; rewrite ?He; by rewrite ?Hc.
Qed.

(** ** The cache *)

(** C1.  [fetch_year_df] reads through the cache and never stores an
    empty frame.  A stored frame with rows is returned and the world is
    left as it is (no request is sent).  Otherwise the fetcher runs (its
    requests are sent, and there is at least one); a fetched frame with
    rows is stored under the year and returned, and a second call returns
    it without any request; a fetched frame without rows is returned and
    nothing is stored, and a second call sends the requests again. *)
Theorem fetch_year_df_read_through (cm : gmap string string)
    (api : nat → string → Z → Response) (year : Z) (w : World) :
  let r := fetch_year_df cm api year w in
  (∀ df, cache w !! year = Some df → empty df = false → r = (df, w))
  ∧ ((∀ df, cache w !! year = Some df → empty df = true) →
       r.1 = (fetch_rows cm api year w).1
       ∧ requests r.2 = requests w ++ fetcher_requests year
       ∧ fetcher_requests year ≠ []
       ∧ (empty r.1 = false →
            cache r.2 = <[year := r.1]> (cache w)
            ∧ fetch_year_df cm api year r.2 = (r.1, r.2))
       ∧ (empty r.1 = true →
            cache r.2 = cache w
            ∧ requests (fetch_year_df cm api year r.2).2
              = requests r.2 ++ fetcher_requests year)).
Proof.
  cbv zeta. split.
  - intros df Hc He. by apply fetch_year_df_hit.
  - intros Hmiss. rewrite fetch_year_df_miss by done.
    destruct (fetch_and_save_world cm api year w) as (H1 & Hr & Hc).
    cbv zeta in *. split_and!; [done|done|apply fetcher_requests_nonempty| |].
    + intros He. rewrite He in Hc. split; [done|].
      apply fetch_year_df_hit; [|done]. rewrite Hc. apply lookup_insert_eq.
    + intros He. rewrite He in Hc. split; [done|].
      rewrite fetch_year_df_miss by (by rewrite Hc).
      apply fetch_and_save_world.
Qed.

Lemma fetch_year_df_read_through_witness :
  let r := fetch_year_df continents_sample api_sample 2018 world_0 in
  r.1 = (fetch_rows continents_sample api_sample 2018 world_0).1
  ∧ requests r.2 = requests world_0 ++ fetcher_requests 2018
  ∧ fetcher_requests 2018 ≠ []
  ∧ (empty r.1 = false →
       cache r.2 = <[2018 := r.1]> (cache world_0)
       ∧ fetch_year_df continents_sample api_sample 2018 r.2 = (r.1, r.2))
  ∧ (empty r.1 = true →
       cache r.2 = cache world_0
       ∧ requests (fetch_year_df continents_sample api_sample 2018 r.2).2
         = requests r.2 ++ fetcher_requests 2018).
Proof.
  apply (fetch_year_df_read_through continents_sample api_sample 2018 world_0).
  intros df. simpl. rewrite lookup_empty. discriminate.
Defined.

(** C10.  When the entry of a year is there and holds a frame without
    rows, [fetch_year_df] does not return it: it goes on to the fetcher,
    returns what the fetcher returns and sends the requests that it would
    send if the entry was not there. *)
Theorem fetch_year_df_empty_entry (cm : gmap string string)
    (api : nat → string → Z → Response) (year : Z) (w : World) :
  cache w !! year = Some [] →
  let absent := mkWorld (delete year (cache w)) (requests w) in
  fetch_year_df cm api year w = fetch_and_save cm api year w
  ∧ (fetch_year_df cm api year w).1 = (fetch_rows cm api year w).1
  ∧ (fetch_year_df cm api year w).1 = (fetch_year_df cm api year absent).1
  ∧ requests (fetch_year_df cm api year w).2
    = requests (fetch_year_df cm api year absent).2
  ∧ requests (fetch_year_df cm api year w).2
    = requests w ++ fetcher_requests year.
Proof.
  intros Hc absent.
  assert (fetch_year_df cm api year w = fetch_and_save cm api year w) as Hw.
  { apply fetch_year_df_miss. intros df. rewrite Hc. by intros [= <-]. }
  assert (fetch_year_df cm api year absent = fetch_and_save cm api year absent)
    as Ha.
  { apply fetch_year_df_miss. intros df. unfold absent. cbn [cache].
    rewrite lookup_delete_eq. discriminate. }
  rewrite Hw, Ha.
  destruct (fetch_and_save_world cm api year w) as (H1 & Hr & _).
  destruct (fetch_and_save_world cm api year absent) as (H1' & Hr' & _).
  cbv zeta in *. split_and!.
  - reflexivity.
  - exact H1.
  - rewrite H1, H1'. unfold absent. destruct w as [c q]. cbn [cache requests].
    apply fetch_rows_cache.
  - rewrite Hr, Hr'. reflexivity.
  - exact Hr.
Qed.

Lemma fetch_year_df_empty_entry_witness :
  (fetch_year_df continents_sample api_sample 2018 world_empty_2018).1
  = (fetch_rows continents_sample api_sample 2018 world_empty_2018).1.
Proof.
  assert (cache world_empty_2018 !! 2018 = Some []) as H
    by (vm_compute; reflexivity).
  exact (proj1 (proj2 (fetch_year_df_empty_entry continents_sample api_sample
                         2018 world_empty_2018 H))).
Defined.

(** *** The probes of the resolver *)

Section Probes.
Variable cm : gmap string string.
Variable api : nat → string → Z → Response.

Lemma probe_0 y w : probe cm api y 0 w = (fetch_year_df cm api y w).1.
Proof. unfold probe. cbn [after_probes Z.of_nat]. by rewrite Z.sub_0_r. Qed.

Lemma probe_S y k w :
  probe cm api y (S k) w = probe cm api (y - 1) k (fetch_year_df cm api y w).2.
Proof.
  unfold probe. cbn [after_probes]. f_equal. f_equal. lia.
Qed.

Lemma find_loop_S y n w :
  find_loop cm api y (S n) w
  = if empty (fetch_year_df cm api y w).1
    then find_loop cm api (y - 1) n (fetch_year_df cm api y w).2
    else (Some y, (fetch_year_df cm api y w).2).
Proof.
  cbn [find_loop]. unfold bind at 1.
  destruct (fetch_year_df cm api y w) as [df w1]. cbn [fst snd].
  by destruct (empty df).
Qed.

Lemma find_loop_first n : ∀ y w k,
  (k < n)%nat → empty (probe cm api y k w) = false →
  (∀ j, (j < k)%nat → empty (probe cm api y j w) = true) →
  (find_loop cm api y n w).1 = Some (y - Z.of_nat k).
Proof.
  induction n as [|n IH]; intros y w k Hk Hne Hlt; [lia|].
  rewrite find_loop_S. destruct k as [|k].
  - rewrite probe_0 in Hne. rewrite Hne. cbn [fst Z.of_nat]. f_equal. lia.
  - pose proof (Hlt 0%nat ltac:(lia)) as H0. rewrite probe_0 in H0.
    rewrite H0. rewrite probe_S in Hne. rewrite (IH (y - 1) _ k).
    + f_equal. lia.
    + lia.
    + done.
    + intros j Hj. rewrite <-probe_S. apply Hlt. lia.
Qed.

Lemma find_loop_none n : ∀ y w,
  (∀ k, (k < n)%nat → empty (probe cm api y k w) = true) →
  (find_loop cm api y n w).1 = None.
Proof.
  induction n as [|n IH]; intros y w Hall; [done|].
  rewrite find_loop_S.
  pose proof (Hall 0%nat ltac:(lia)) as H0. rewrite probe_0 in H0.
  rewrite H0. apply IH. intros k Hk. rewrite <-probe_S. apply Hall. lia.
Qed.

Lemma find_latest_fst candidate max_back w :
  (find_latest_available_year cm api candidate max_back w).1
  = default (candidate - max_back)
      (find_loop cm api candidate (Z.to_nat max_back) w).1.
Proof.
  unfold find_latest_available_year, bind, ret.
  by destruct (find_loop cm api candidate (Z.to_nat max_back) w).
Qed.

End Probes.

(** ** The availability resolver *)

(** C5.  [find_latest_available_year candidate max_back] probes the
    years [candidate], [candidate - 1], ... in this order, [max_back] of
    them at most, and returns the first whose frame has rows; when the
    frame of every probed year is without rows it returns
    [candidate - max_back].  With the years 2019 to 2021 without data and
    2018 in the cache, the candidate 2021 and [max_back = 6] give 2018. *)
Theorem find_latest_available_year_spec :
  (∀ (cm : gmap string string) (api : nat → string → Z → Response)
     (candidate max_back : Z) (w : World),
     let y := (find_latest_available_year cm api candidate max_back w).1 in
     (∀ k : nat,
        Z.of_nat k < max_back →
        empty (probe cm api candidate k w) = false →
        (∀ j, (j < k)%nat → empty (probe cm api candidate j w) = true) →
        y = candidate - Z.of_nat k)
     ∧ ((∀ k : nat, Z.of_nat k < max_back →
                    empty (probe cm api candidate k w) = true) →
        y = candidate - max_back))
  ∧ (empty (fetch_year_df continents_sample api_sample 2021 world_2018).1 = true
     ∧ (find_latest_available_year continents_sample api_sample 2021 6
          world_2018).1 = 2018).
Proof.
  split.
  - intros cm api candidate max_back w y. unfold y.
    rewrite find_latest_fst. split.
    + intros k Hk Hne Hlt.
      by rewrite (find_loop_first cm api _ candidate w k) by (done || lia).
    + intros Hall. rewrite find_loop_none; [done|]. intros k Hk.
      apply Hall. lia.
  - split; by vm_compute.
Qed.

Lemma find_latest_available_year_spec_witness :
  (find_latest_available_year continents_sample api_sample 2021 6 world_2018).1
  = 2021 - Z.of_nat 3.
Proof.
  apply (proj1 (proj1 find_latest_available_year_spec
                  continents_sample api_sample 2021 6 world_2018) 3%nat).
  - lia.
  - by vm_compute.
  - intros j Hj.
    destruct j as [|[|[|j]]]; [by vm_compute..|lia].
Defined.

(** *** The frames of the race, in closed form *)

(** One call of [render_frame] followed by [prev_df = df] and
    [frame_idx += 1]. *)
Definition emit (st : SeqState) (x : DataFrame * Label) : SeqState :=
  mkSeqState (S (frame_idx st)) (Some x.1)
    (emitted st ++ [mkFrame x.1 (prev_df st) x.2 (frame_idx st)]).

Lemma emit_interp_foldl s df0 df1 y steps st (ks : list nat) :
  foldl (emit_interp s df0 df1 y steps) st ks
  = foldl emit st
      ((λ k, (interpolate_df s df0 df1 (step_t k steps),
              LInterp y (step_t k steps))) <$> ks).
Proof. revert st. induction ks as [|k ks IH]; intros st; [done|]. apply IH. Qed.

Lemma pair_step_emit s year_dfs steps st y :
  pair_step s year_dfs steps st y
  = foldl emit st (pair_frames s year_dfs steps y).
Proof.
  unfold pair_step, pair_frames.
  destruct (year_dfs !! y) as [df0|]; [|done].
  destruct (year_dfs !! (y + 1)) as [df1|]; [|done].
  apply emit_interp_foldl.
Qed.

Lemma race_loop_emit s year_dfs steps st (ys : list Z) :
  foldl (pair_step s year_dfs steps) st ys
  = foldl emit st (ys ≫= pair_frames s year_dfs steps).
Proof.
  revert st. induction ys as [|y ys IH]; intros st; [done|].
  cbn [foldl]. rewrite IH, pair_step_emit. csimpl. by rewrite foldl_app.
Qed.

Lemma main_race_frames_emit s year_dfs start end_ steps :
  main_race_frames s year_dfs start end_ steps
  = emitted (foldl emit (mkSeqState 0 None [])
               (race_frames s year_dfs start end_ steps)).
Proof.
  unfold main_race_frames, race_frames, race_loop.
  rewrite race_loop_emit, foldl_app.
  by destruct (year_dfs !! end_).
Qed.

(** What a run of [emit] adds to the frames, the counter and the
    previous frame. *)
Lemma foldl_emit_spec (l : list (DataFrame * Label)) : ∀ st,
  let st' := foldl emit st l in
  (λ f, (f_df f, f_label f)) <$> emitted st'
    = ((λ f, (f_df f, f_label f)) <$> emitted st) ++ l
  ∧ f_idx <$> emitted st' = (f_idx <$> emitted st) ++ seq (frame_idx st) (length l)
  ∧ f_prev <$> emitted st'
    = (f_prev <$> emitted st) ++ take (length l) (prev_df st :: (Some ∘ fst <$> l)).
Proof.
  induction l as [|[df lab] l IH]; intros st.
  - cbn [foldl length seq take]. by rewrite !app_nil_r.
  - cbn [foldl]. destruct (IH (emit st (df, lab))) as (H1 & H2 & H3).
    cbv zeta. rewrite H1, H2, H3. cbn [emit emitted frame_idx prev_df fst snd].
    rewrite !fmap_app, <-!app_assoc. done.
Qed.

(** The ranked frames of the years 2000 to 2002. *)
Definition years_2000_2002 : gmap Z DataFrame :=
  {[ 2000 := rank_df stable_sorter year_2000;
     2001 := rank_df stable_sorter year_2001;
     2002 := rank_df stable_sorter year_2002 ]}.

(** ** The frame sequencer *)

(** C6, as the code has it.  The frames of [main_race] are, in this
    order: for every year pair [(y, y+1)] from [start] on whose two
    frames are there, the [steps] interpolated frames at
    [t = 0/steps, ..., (steps-1)/steps], and nothing else for the pair;
    after the last pair, the frame of the year [end] itself, if there is
    one.  The frames are numbered from 0 without a gap, and each frame
    is drawn with the frame before it as the previous one (the first
    with none). *)
Theorem main_race_frames_spec (s : Sorter) (year_dfs : gmap Z DataFrame)
    (start end_ : Z) (steps : nat) :
  let fs := main_race_frames s year_dfs start end_ steps in
  (λ f, (f_df f, f_label f)) <$> fs = race_frames s year_dfs start end_ steps
  ∧ f_idx <$> fs = seq 0 (length fs)
  ∧ f_prev <$> fs = take (length fs) (None :: (Some ∘ f_df <$> fs)).
Proof.
  cbv zeta. rewrite main_race_frames_emit.
  destruct (foldl_emit_spec (race_frames s year_dfs start end_ steps)
              (mkSeqState 0 None [])) as (H1 & H2 & H3).
  cbv zeta in *. cbn [emitted frame_idx prev_df fmap list_fmap app] in *.
  set (fs := emitted _) in *.
  assert (length fs = length (race_frames s year_dfs start end_ steps)) as Hlen.
  { by rewrite <-H1, length_fmap. }
  split_and!; [done|by rewrite Hlen|].
  rewrite Hlen, H3. do 2 f_equal. rewrite <-H1, <-list_fmap_compose.
  by apply list_fmap_ext.
Qed.

(** The claim as the specification has it fails: with the years 2000,
    2001 and 2002 and two steps, the two frames of the pair (2000, 2001)
    are followed by the first frame of the pair (2001, 2002); no frame
    has the label of the year 2001 and none is the frame of that year. *)
Lemma main_race_frames_skip_2001 :
  let fs := main_race_frames stable_sorter years_2000_2002 2000 2002 2 in
  f_label <$> fs
  = [LInterp 2000 (step_t 0 2); LInterp 2000 (step_t 1 2);
     LInterp 2001 (step_t 0 2); LInterp 2001 (step_t 1 2); LYear 2002]
  ∧ years_2000_2002 !! 2001 = Some (rank_df stable_sorter year_2001)
  ∧ rank_df stable_sorter year_2001 ∉ f_df <$> fs.
Proof.
  cbv zeta. split_and!.
  - by vm_compute.
  - by vm_compute.
  - apply (bool_decide_unpack _). by vm_compute.
Qed.

(** * More properties of the script *)

(** ** The ranking step *)

Lemma imap_set_rank_life k (df : DataFrame) :
  life <$> imap (λ i, set_rank (k + i)) df = life <$> df.
Proof.
  apply list_eq. intros i.
  rewrite !list_lookup_fmap, list_lookup_imap. by destruct (df !! i).
Qed.

Lemma imap_set_rank_drop k (df : DataFrame) :
  drop_rank <$> imap (λ i, set_rank (k + i)) df = drop_rank <$> df.
Proof.
  apply list_eq. intros i.
  rewrite !list_lookup_fmap, list_lookup_imap. by destruct (df !! i).
Qed.

Lemma rank_df_known_part s df :
  let known := (rerank 0 (sort_keyed s (keyed df))).*2 in
  Forall (λ r, isna_life r = false) known ∧ Sorted life_ge known.
Proof.
  cbv zeta. rewrite rerank_snd. split.
  - apply Forall_isna_imap. rewrite Forall_fmap.
    eapply Forall_impl; [apply sorted_keys_life|].
    intros [v r] Hr. simpl in *. unfold isna_life. by rewrite Hr.
  - eapply Sorted_life_ge_lives; [apply imap_set_rank_life|].
    apply sort_keyed_rows_sorted.
Qed.

Global Instance life_ge_trans : Transitive life_ge.
Proof.
  intros x y z (a & b & Ha & Hb & Hab) (b' & c & Hb' & Hc & Hbc).
  exists a, c. split_and!; [done..|]. simplify_eq. by apply Qle_trans with b.
Qed.

Lemma StronglySorted_lookup_lt {A} (R : relation A) l i j x y :
  StronglySorted R l → l !! i = Some x → l !! j = Some y → (i < j)%nat → R x y.
Proof.
  intros Hs. revert i j. induction Hs as [|z l Hs IH Hall]; intros i j Hi Hj Hij.
  - done.
  - destruct j as [|j]; [lia|]. destruct i as [|i]; simplify_eq/=.
    + eapply Forall_forall; [exact Hall|]. by eapply list_elem_of_lookup_2.
    + apply (IH i j); [done..|lia].
Qed.

(** X1.  The ranking step keeps the rows of the frame: the ranked frame
    has the rows of the input (apart from the rank), the ranks 1, ..., n
    from the first row to the last, the rows with a value first, in
    descending order of value, and the rows without a value after them,
    in the order they had. *)
Theorem rank_df_rows (s : Sorter) (df : DataFrame) :
  drop_rank <$> rank_df s df ≡ₚ drop_rank <$> df
  ∧ rank <$> rank_df s df = ranks_upto (length df)
  ∧ ∃ known nas,
      rank_df s df = known ++ nas
      ∧ Forall (λ r, isna_life r = false) known
      ∧ Sorted life_ge known
      ∧ drop_rank <$> nas
        = drop_rank <$> filter (λ r, isna_life r = true) df.
Proof.
  split_and!.
  - unfold rank_df. by rewrite assign_rank_drop, sort_values_perm.
  - unfold rank_df. by rewrite assign_rank_ranks, sort_values_length.
  - rewrite rank_df_unfold. cbv zeta.
    destruct (rank_df_known_part s df) as [Hk Hs].
    eexists _, _. split_and!; [reflexivity|done|done|].
    apply imap_set_rank_drop.
Qed.

(** X2.  In a ranked frame a row with a greater value has a smaller
    rank, and the rank of a row is its position counted from 1. *)
Theorem rank_df_value_order (s : Sorter) (df : DataFrame) (i j : nat)
    (r1 r2 : Row) (a b : Q) :
  rank_df s df !! i = Some r1 → rank_df s df !! j = Some r2 →
  life r1 = Some a → life r2 = Some b → (b < a)%Q →
  rank r1 = Some (Z.of_nat i + 1) ∧ rank r2 = Some (Z.of_nat j + 1)
  ∧ (i < j)%nat.
Proof.
  intros Hi Hj Ha Hb Hlt.
  assert (∀ k r, rank_df s df !! k = Some r → rank r = Some (Z.of_nat k + 1))
    as Hrank.
  { intros k r. unfold rank_df, assign_rank. rewrite list_lookup_imap.
    destruct (_ !! k); [|done]. by intros [= <-]. }
  split_and!; [by apply Hrank|by apply Hrank|].
  rewrite rank_df_unfold in Hi, Hj. cbv zeta in *.
  destruct (rank_df_known_part s df) as [Hk Hs]. cbv zeta in *.
  set (known := (rerank 0 (sort_keyed s (keyed df))).*2) in *.
  set (nas := imap _ _) in *.
  assert (Forall (λ r, isna_life r = true) nas) as Hn
    by apply Forall_isna_imap, filter_isna_nas.
  assert (∀ k r v, (known ++ nas) !! k = Some r → life r = Some v →
                   known !! k = Some r) as Hin.
  { intros k r v Hl Hv. apply lookup_app_Some in Hl as [?|[_ Hl]]; [done|].
    apply list_elem_of_lookup_2 in Hl.
    pose proof (proj1 (Forall_forall _ _) Hn r Hl) as Hna.
    unfold isna_life in Hna. by rewrite Hv in Hna. }
  apply (Hin _ _ a) in Hi; [|done]. apply (Hin _ _ b) in Hj; [|done].
  apply Sorted_StronglySorted in Hs; [|apply _].
  destruct (decide (i < j)%nat) as [|Hge]; [done|exfalso].
  destruct (decide (i = j)) as [->|Hne].
  - simplify_eq. by apply Qlt_irrefl in Hlt.
  - pose proof (StronglySorted_lookup_lt _ _ j i _ _ Hs Hj Hi ltac:(lia))
      as (b' & a' & ? & ? & Hle).
    simplify_eq. by apply Qlt_not_le in Hlt.
Qed.

Lemma rank_df_value_order_witness :
  rank (mkRow "JPN" (Some 81%Q) (Some "Asia"%string) (Some 1)) = Some (Z.of_nat 0 + 1)
  ∧ rank (mkRow "USA" (Some 77%Q) (Some "North America"%string) (Some 2))
    = Some (Z.of_nat 1 + 1)
  ∧ (0 < 1)%nat.
Proof.
  apply (rank_df_value_order stable_sorter year_2000 0 1 _ _ 81%Q 77%Q);
    [reflexivity|reflexivity|reflexivity|reflexivity|reflexivity].
Defined.

(** ** More on interpolation *)

Lemma interp_rows_joined a b t :
  NoDup (keys b) →
  interp_rows a b t ≡ₚ filter (λ r, isna_life r = false) (joined_rows a b t).
Proof. intros Hb. unfold interp_rows. by rewrite merge_outer_joined. Qed.

(** X3.  Interpolating two frames in which no identity occurs twice
    gives a frame in which no identity occurs twice. *)
Theorem interpolate_df_NoDup (s : Sorter) (df0 df1 : DataFrame) (t : Q) :
  NoDup (keys df0) → NoDup (keys df1) →
  NoDup (keys (interpolate_df s df0 df1 t)).
Proof.
  intros H0 H1. unfold keys, interpolate_df.
  rewrite assign_rank_iso3, sort_values_perm, interp_rows_joined by done.
  by apply NoDup_keys_filter, joined_rows_NoDup.
Qed.

Lemma interpolate_df_NoDup_witness :
  NoDup (keys (interpolate_df stable_sorter year_2000 year_2001 (1#2))).
Proof.
  apply (interpolate_df_NoDup stable_sorter year_2000 year_2001 (1#2));
    [apply year_2000_NoDup|apply year_2001_NoDup].
Defined.

(** X6.  Interpolating a frame with itself gives, for every [t] and
    every identity, the value the frame has. *)
Theorem interpolate_df_self (s : Sorter) (df : DataFrame) (t : Q)
    (iso : string) :
  NoDup (keys df) →
  option_Forall2 Qeq (value_of (interpolate_df s df df t) iso)
                     (value_of df iso).
Proof.
  intros Hnd. rewrite value_of_interpolate_df by done.
  destruct (value_of df iso); simpl; constructor; ring.
Qed.

Lemma interpolate_df_self_witness :
  option_Forall2 Qeq
    (value_of (interpolate_df stable_sorter year_2001 year_2001 (2#3)) "AUS")
    (value_of year_2001 "AUS").
Proof.
  apply (interpolate_df_self stable_sorter year_2001 (2#3) "AUS").
  apply year_2001_NoDup.
Defined.

(** ** What a run does to the world *)

(** From [w] to [w']: every frame with rows that the cache held is still
    there, and every frame that is new in the cache has rows. *)
Definition keeps_cache (w w' : World) : Prop :=
  (∀ y df, cache w !! y = Some df → empty df = false → cache w' !! y = Some df)
  ∧ (∀ y df, cache w' !! y = Some df →
             cache w !! y = Some df ∨ empty df = false).

(** From [w] to [w']: requests were added at the end of the list, all of
    them for years with [P]. *)
Definition sends_years (P : Z → Prop) (w w' : World) : Prop :=
  ∃ extra, requests w' = requests w ++ extra ∧ Forall (λ cy, P cy.2) extra.

Lemma keeps_cache_refl w : keeps_cache w w.
Proof. split; auto. Qed.

Lemma keeps_cache_trans w1 w2 w3 :
  keeps_cache w1 w2 → keeps_cache w2 w3 → keeps_cache w1 w3.
Proof.
  intros [H1 H2] [H3 H4]. split.
  - intros y df Hy He. apply H3; [by apply H1|done].
  - intros y df Hy. destruct (H4 y df Hy) as [?|?]; [by apply H2|by right].
Qed.

Lemma sends_years_refl P w : sends_years P w w.
Proof. exists []. by rewrite app_nil_r. Qed.

Lemma sends_years_trans P w1 w2 w3 :
  sends_years P w1 w2 → sends_years P w2 w3 → sends_years P w1 w3.
Proof.
  intros (e1 & H1 & F1) (e2 & H2 & F2). exists (e1 ++ e2).
  split; [by rewrite H2, H1, app_assoc|by apply Forall_app].
Qed.

Lemma sends_years_weaken (P P' : Z → Prop) w w' :
  (∀ y, P y → P' y) → sends_years P w w' → sends_years P' w w'.
Proof.
  intros HP (e & He & HF). exists e. split; [done|].
  eapply Forall_impl; [exact HF|]. intros [c y]. apply HP.
Qed.

Lemma fetcher_requests_year year :
  Forall (λ cy : string * Z, cy.2 = year) (fetcher_requests year).
Proof. unfold fetcher_requests. by apply Forall_fmap, Forall_true. Qed.

Lemma fetch_year_df_cases cm api year w :
  (∃ df, cache w !! year = Some df ∧ empty df = false
         ∧ fetch_year_df cm api year w = (df, w))
  ∨ ((∀ df, cache w !! year = Some df → empty df = true)
     ∧ fetch_year_df cm api year w = fetch_and_save cm api year w).
Proof.
  destruct (cache w !! year) as [df|] eqn:Hc.
  - destruct (empty df) eqn:He.
    + right. split; [by intros ? [= <-]|]. apply fetch_year_df_miss.
      rewrite Hc. by intros ? [= <-].
    + left. exists df. split_and!; [done..|]. by apply fetch_year_df_hit.
  - right. split; [done|]. apply fetch_year_df_miss. by rewrite Hc.
Qed.

Lemma fetch_year_df_keeps cm api year w :
  keeps_cache w (fetch_year_df cm api year w).2.
Proof.
  destruct (fetch_year_df_cases cm api year w)
    as [(df & _ & _ & ->)|[Hmiss ->]]; [apply keeps_cache_refl|].
  destruct (fetch_and_save_world cm api year w) as (_ & _ & Hc).
  cbv zeta in Hc. revert Hc.
  generalize (fetch_and_save cm api year w). intros [df' w'] Hc.
  cbn [fst snd] in *. split; intros y df; rewrite Hc; clear Hc.
  - intros Hy Hne. destruct (empty df'); [done|].
    rewrite lookup_insert_ne; [done|].
    intros <-. rewrite (Hmiss df Hy) in Hne. done.
  - destruct (empty df') eqn:He; [by left|].
    destruct (decide (year = y)) as [<-|Hne].
    + rewrite lookup_insert_eq. intros [= <-]. by right.
    + rewrite lookup_insert_ne by done. by left.
Qed.

Lemma fetch_year_df_sends cm api year w :
  sends_years (λ y, y = year) w (fetch_year_df cm api year w).2.
Proof.
  destruct (fetch_year_df_cases cm api year w)
    as [(df & _ & _ & ->)|[Hmiss ->]]; [apply sends_years_refl|].
  destruct (fetch_and_save_world cm api year w) as (_ & Hr & _).
  cbv zeta in Hr. revert Hr.
  generalize (fetch_and_save cm api year w). intros [df' w'] Hr.
  exists (fetcher_requests year). split; [exact Hr|].
  apply fetcher_requests_year.
Qed.

(** After a call that returns a frame with rows, the cache holds this
    frame for the year. *)
Lemma fetch_year_df_cached cm api year w :
  empty (fetch_year_df cm api year w).1 = false →
  cache (fetch_year_df cm api year w).2 !! year
  = Some (fetch_year_df cm api year w).1.
Proof.
  destruct (fetch_year_df_cases cm api year w)
    as [(df & Hc & _ & ->)|[Hmiss ->]]; [by intros _|].
  destruct (fetch_and_save_world cm api year w) as (_ & _ & Hc).
  cbv zeta in Hc. revert Hc.
  generalize (fetch_and_save cm api year w). intros [df' w'] Hc He.
  cbn [fst snd] in *. rewrite Hc, He. apply lookup_insert_eq.
Qed.

(** ** More on the cache *)

(** X10.  Whenever [fetch_year_df] returns a frame with rows, whether
    from the cache or from the fetcher, the cache holds this frame for
    the year afterwards and the same call again returns it without
    sending a request or changing the world. *)
Theorem fetch_year_df_again (cm : gmap string string)
    (api : nat → string → Z → Response) (year : Z) (w : World) :
  let r := fetch_year_df cm api year w in
  empty r.1 = false →
  cache r.2 !! year = Some r.1 ∧ fetch_year_df cm api year r.2 = (r.1, r.2).
Proof.
  cbv zeta. intros He. pose proof (fetch_year_df_cached cm api year w He) as Hc.
  split; [exact Hc|]. apply fetch_year_df_hit; [exact Hc|exact He].
Qed.

Lemma fetch_year_df_again_witness :
  let r := fetch_year_df continents_sample api_sample 2018 world_0 in
  cache r.2 !! 2018 = Some r.1
  ∧ fetch_year_df continents_sample api_sample 2018 r.2 = (r.1, r.2).
Proof.
  assert (empty (fetch_year_df continents_sample api_sample 2018 world_0).1
          = false) as H by (vm_compute; reflexivity).
  exact (fetch_year_df_again continents_sample api_sample 2018 world_0 H).
Defined.

(** X11.  [fetch_year_df] never changes or removes a cached frame that
    has rows, never writes a frame without rows, and sends requests for
    the year it is called for and no other. *)
Theorem fetch_year_df_world (cm : gmap string string)
    (api : nat → string → Z → Response) (year : Z) (w : World) :
  keeps_cache w (fetch_year_df cm api year w).2
  ∧ sends_years (λ y, y = year) w (fetch_year_df cm api year w).2.
Proof. split; [apply fetch_year_df_keeps|apply fetch_year_df_sends]. Qed.

(** ** The fetched frame *)

Lemma some_country_codes_NoDup : NoDup some_country_codes.
Proof. apply (bool_decide_unpack _). vm_compute. exact I. Qed.

Lemma row_of_response_Some cm code resp r :
  row_of_response cm code resp = Some r →
  iso3 r = code ∧ is_Some (life r) ∧ is_Some (continent r) ∧ rank r = None.
Proof.
  unfold row_of_response. destruct resp as [vals|]; [|done]. simpl.
  destruct (match List.find is_btsx vals with
            | Some v => Some v | None => head vals end) as [pick|]; [|done].
  simpl. destruct (NumericValue pick); [|done]. simpl.
  intros [= <-]. simpl. eauto.
Qed.

Lemma mapM_ask_rows cm api year codes w :
  let rows := omap id (mapM (ask api (row_of_response cm) year) codes w).1 in
  keys rows `sublist_of` codes
  ∧ Forall (λ r, is_Some (life r) ∧ is_Some (continent r) ∧ rank r = None) rows.
Proof.
  cbv zeta. revert w. induction codes as [|c codes IH]; intros w.
  - split; [done|constructor].
  - rewrite mapM_cons, ask_eq. cbn [fst snd].
    destruct (IH (mkWorld (cache w) (requests w ++ [(c, year)]))) as [Hs Hf].
    destruct (row_of_response cm c _) as [r|] eqn:Hr; csimpl.
    + apply row_of_response_Some in Hr as (<- & Hr).
      split; [by apply sublist_skip|by constructor].
    + split; [by apply sublist_cons|done].
Qed.

(** X12.  The frame that the fetcher makes has its identities in the
    order of [some_country_codes] and none twice; every row has a value
    and a category, and no rank. *)
Theorem fetch_rows_wellformed (cm : gmap string string)
    (api : nat → string → Z → Response) (year : Z) (w : World) :
  let df := (fetch_rows cm api year w).1 in
  keys df `sublist_of` some_country_codes
  ∧ NoDup (keys df)
  ∧ Forall (λ r, is_Some (life r) ∧ is_Some (continent r) ∧ rank r = None) df.
Proof.
  cbv zeta. pose proof some_country_codes_NoDup as Hnd. revert Hnd.
  unfold fetch_rows. generalize some_country_codes. intros codes Hnd.
  unfold bind at 1 3 5, ret at 1 3 5. fold (ask api (row_of_response cm) year).
  destruct (mapM_ask_rows cm api year codes w) as [Hs Hf]. cbv zeta in *.
  destruct (mapM _ codes w) as [rows w']. cbn [fst snd] in *.
  split_and!; [done| |done]. by eapply sublist_NoDup.
Qed.

(** ** More on the resolver *)

Lemma find_latest_eq cm api candidate max_back w :
  find_latest_available_year cm api candidate max_back w
  = (default (candidate - max_back)
       (find_loop cm api candidate (Z.to_nat max_back) w).1,
     (find_loop cm api candidate (Z.to_nat max_back) w).2).
Proof.
  unfold find_latest_available_year, bind, ret.
  by destruct (find_loop cm api candidate (Z.to_nat max_back) w).
Qed.

Lemma find_loop_post cm api n : ∀ y w,
  let r := find_loop cm api y n w in
  keeps_cache w r.2
  ∧ sends_years (λ yr, y - Z.of_nat n < yr ≤ y) w r.2
  ∧ match r.1 with
    | Some y' =>
        y - Z.of_nat n < y' ≤ y
        ∧ ∃ df, cache r.2 !! y' = Some df ∧ empty df = false
    | None => True
    end.
Proof.
  induction n as [|n IH]; intros y w; cbv zeta.
  - split; [apply keeps_cache_refl|split; [apply sends_years_refl|done]].
  - rewrite find_loop_S.
    pose proof (fetch_year_df_keeps cm api y w) as Hk.
    pose proof (fetch_year_df_sends cm api y w) as Hs.
    pose proof (fetch_year_df_cached cm api y w) as Hc.
    revert Hk Hs Hc. generalize (fetch_year_df cm api y w).
    intros [df w1] Hk Hs Hc. cbn [fst snd] in *.
    destruct (empty df) eqn:He.
    + destruct (IH (y - 1) w1) as (Hk' & Hs' & Hr'). cbv zeta in *.
      split; [|split].
      * by eapply keeps_cache_trans.
      * eapply sends_years_trans.
        -- eapply sends_years_weaken; [|exact Hs]. intros yr ->. lia.
        -- eapply sends_years_weaken; [|exact Hs']. intros yr Hyr.
           cbv beta in *. lia.
      * destruct (find_loop cm api (y - 1) n w1).1 as [y'|]; [|done].
        destruct Hr' as [? ?]. split; [lia|done].
    + cbn [fst snd]. split; [done|split].
      * eapply sends_years_weaken; [|exact Hs]. intros yr ->. lia.
      * split; [lia|]. exists df. split; [by apply Hc|done].
Qed.



(** X13.  For a lookback that is not negative the year returned lies
    between [candidate - max_back] and [candidate]; a year above the
    floor [candidate - max_back] is returned only if the cache holds a
    frame with rows for it afterwards. *)
Theorem find_latest_available_year_bounds (cm : gmap string string)
    (api : nat → string → Z → Response) (candidate max_back : Z) (w : World) :
  0 ≤ max_back →
  let r := find_latest_available_year cm api candidate max_back w in
  candidate - max_back ≤ r.1 ≤ candidate
  ∧ (candidate - max_back < r.1 →
     ∃ df, cache r.2 !! r.1 = Some df ∧ empty df = false).
Proof.
  intros Hm. cbv zeta. rewrite find_latest_eq. cbn [fst snd].
  destruct (find_loop_post cm api (Z.to_nat max_back) candidate w)
    as (_ & _ & Hr). cbv zeta in Hr. rewrite Z2Nat.id in Hr by done.
  destruct (find_loop cm api candidate (Z.to_nat max_back) w).1 as [y|]; simpl.
  - destruct Hr as [? ?]. split; [lia|done].
  - split; [lia|]. lia.
Qed.

Lemma find_latest_available_year_bounds_witness :
  let r := find_latest_available_year continents_sample api_sample 2021 6
             world_2018 in
  2021 - 6 ≤ r.1 ≤ 2021
  ∧ (2021 - 6 < r.1 → ∃ df, cache r.2 !! r.1 = Some df ∧ empty df = false).
Proof.
  apply (find_latest_available_year_bounds continents_sample api_sample
           2021 6 world_2018).
  lia.
Defined.

(** X14.  With a lookback of zero or less no year is probed: the world
    is left as it is and [candidate - max_back] is returned, which for a
    negative lookback is a year after the candidate. *)
Theorem find_latest_available_year_no_lookback (cm : gmap string string)
    (api : nat → string → Z → Response) (candidate max_back : Z) (w : World) :
  max_back ≤ 0 →
  find_latest_available_year cm api candidate max_back w
  = (candidate - max_back, w).
Proof.
  intros Hm. rewrite find_latest_eq.
  replace (Z.to_nat max_back) with 0%nat by lia. done.
Qed.

Lemma find_latest_available_year_no_lookback_witness :
  find_latest_available_year continents_sample api_sample 2021 (-2) world_2018
  = (2021 - (-2), world_2018).
Proof.
  apply (find_latest_available_year_no_lookback continents_sample api_sample
           2021 (-2) world_2018).
  lia.
Defined.

(** X15.  The resolver sends requests only for years above
    [candidate - max_back] and up to [candidate]: the floor year that it
    returns when nothing is found is never asked for.  It keeps the
    cached frames with rows and writes no frame without rows. *)
Theorem find_latest_available_year_world (cm : gmap string string)
    (api : nat → string → Z → Response) (candidate max_back : Z) (w : World) :
  let r := find_latest_available_year cm api candidate max_back w in
  keeps_cache w r.2
  ∧ sends_years (λ y, candidate - max_back < y ≤ candidate) w r.2.
Proof.
  cbv zeta. rewrite find_latest_eq. cbn [fst snd].
  destruct (find_loop_post cm api (Z.to_nat max_back) candidate w)
    as (Hk & Hs & _). cbv zeta in *. split; [done|].
  destruct (decide (0 ≤ max_back)) as [Hm|Hm].
  - by rewrite Z2Nat.id in Hs.
  - eapply sends_years_weaken; [|exact Hs].
    replace (Z.to_nat max_back) with 0%nat by lia. intros y Hy.
    cbv beta in *. lia.
Qed.

(** ** The years in the cache *)

Lemma elem_of_cache_years w y : y ∈ cache_years w ↔ is_Some (cache w !! y).
Proof.
  unfold cache_years. rewrite merge_sort_Permutation, elem_of_elements.
  apply elem_of_dom.
Qed.

Lemma cached_years_eq w : cached_years w = ((cached_years w).1, w).
Proof. done. Qed.

Lemma elem_of_cached_years w y :
  y ∈ (cached_years w).1 ↔ is_Some (cache w !! y) ∧ 1000 ≤ y ≤ 9999.
Proof.
  unfold cached_years. cbn [fst].
  rewrite list_elem_of_filter, elem_of_cache_years. tauto.
Qed.

(** X16.  [cached_years] gives, in ascending order and without
    repetition, the years from 1000 to 9999 that have a file, whether the
    file holds rows or not, and leaves the world as it is. *)
Theorem cached_years_spec (w : World) :
  cached_years w = ((cached_years w).1, w)
  ∧ (∀ y, y ∈ (cached_years w).1 ↔
          is_Some (cache w !! y) ∧ 1000 ≤ y ≤ 9999)
  ∧ StronglySorted Z.lt (cached_years w).1.
Proof.
  split_and!.
  - apply cached_years_eq.
  - apply elem_of_cached_years.
  - unfold cached_years. cbn [fst]. assert (StronglySorted Z.le (cache_years w)) as Hs
      by (apply StronglySorted_merge_sort; apply _).
    assert (NoDup (cache_years w)) as Hnd.
    { unfold cache_years. rewrite merge_sort_Permutation.
      apply NoDup_elements. }
    revert Hs Hnd. generalize (cache_years w). intros l Hs.
    induction Hs as [|x l Hs IH Hall]; intros Hnd.
    + constructor.
    + apply NoDup_cons in Hnd as [Hx Hnd]. specialize (IH Hnd).
      destruct (decide (1000 ≤ x ≤ 9999)).
      * rewrite filter_cons_True by done. constructor; [done|].
        apply Forall_forall. intros y [_ Hy]%list_elem_of_filter.
        pose proof (proj1 (Forall_forall _ _) Hall y Hy).
        assert (x ≠ y) by (intros ->; done). lia.
      * by rewrite filter_cons_False.
Qed.

(** ** Filling the cache *)

Lemma forM__cons {A} (f : A → M unit) x l w :
  forM_ f (x :: l) w = forM_ f l (f x w).2.
Proof. simpl. unfold bind. by destruct (f x w). Qed.

Lemma ensure_step_post cm api (have : list Z) y w :
  keeps_cache w (ensure_step cm api have y w).2
  ∧ sends_years (λ z, z = y ∧ y ∉ have) w (ensure_step cm api have y w).2.
Proof.
  unfold ensure_step. case_bool_decide as Hin.
  - split; [apply keeps_cache_refl|apply sends_years_refl].
  - unfold bind.
    pose proof (fetch_year_df_keeps cm api y w) as Hk.
    pose proof (fetch_year_df_sends cm api y w) as Hs.
    revert Hk Hs. generalize (fetch_year_df cm api y w).
    intros [df w1] Hk Hs. cbn [fst snd ret] in *. split; [done|].
    eapply sends_years_weaken; [|exact Hs]. by intros z ->.
Qed.

Lemma ensure_loop_post cm api (have ys : list Z) : ∀ w,
  let r := forM_ (ensure_step cm api have) ys w in
  keeps_cache w r.2 ∧ sends_years (λ y, y ∈ ys ∧ y ∉ have) w r.2.
Proof.
  induction ys as [|y ys IH]; intros w; cbv zeta.
  - split; [apply keeps_cache_refl|apply sends_years_refl].
  - rewrite forM__cons.
    destruct (ensure_step_post cm api have y w) as [Hk Hs].
    destruct (IH (ensure_step cm api have y w).2) as [Hk' Hs'].
    cbv zeta in *. split.
    + exact (keeps_cache_trans _ _ _ Hk Hk').
    + eapply sends_years_trans.
      * eapply sends_years_weaken; [|exact Hs]. intros z [-> ?].
        split; [by left|done].
      * eapply sends_years_weaken; [|exact Hs']. intros z [? ?].
        split; [by right|done].
Qed.

Lemma elem_of_range a b y : y ∈ range a b ↔ a ≤ y < b.
Proof. unfold range. rewrite elem_of_seqZ. lia. Qed.

Lemma ensure_cache_eq cm api start_year end_year w :
  ensure_cache cm api start_year end_year w
  = forM_ (ensure_step cm api (cached_years w).1)
          (range start_year (end_year + 1)) w.
Proof. unfold ensure_cache, bind at 1. by rewrite cached_years_eq. Qed.


(** X17.  [ensure_cache start end] keeps the cached frames with rows,
    writes no frame without rows, and sends requests only for years from
    [start] to [end] that [cached_years] did not list: a year from 1000
    to 9999 whose file is there is not fetched, even when the file holds
    no rows. *)
Theorem ensure_cache_world (cm : gmap string string)
    (api : nat → string → Z → Response) (start_year end_year : Z) (w : World) :
  let w' := (ensure_cache cm api start_year end_year w).2 in
  keeps_cache w w'
  ∧ sends_years (λ y, start_year ≤ y ≤ end_year
                      ∧ ¬ (is_Some (cache w !! y) ∧ 1000 ≤ y ≤ 9999)) w w'.
Proof.
  cbv zeta. rewrite ensure_cache_eq.
  destruct (ensure_loop_post cm api (cached_years w).1
              (range start_year (end_year + 1)) w) as [Hk Hs].
  split; [done|]. eapply sends_years_weaken; [|exact Hs].
  intros y [Hy%elem_of_range Hn]. rewrite elem_of_cached_years in Hn.
  split; [lia|done].
Qed.

(** ** The frames of the years *)

Lemma collect_year_dfs_cons cm api s year rest dfs w :
  collect_year_dfs cm api s (year :: rest) dfs w
  = let r := fetch_year_df cm api year w in
    collect_year_dfs cm api s rest
      (if empty r.1 then dfs else <[year := rank_df s r.1]> dfs) r.2.
Proof.
  cbn [collect_year_dfs]. unfold bind at 1.
  destruct (fetch_year_df cm api year w) as [df w1]. cbv zeta. cbn [fst snd].
  by destruct (empty df).
Qed.

Lemma collect_year_dfs_post cm api s years : ∀ dfs0 w,
  let r := collect_year_dfs cm api s years dfs0 w in
  keeps_cache w r.2
  ∧ sends_years (λ y, y ∈ years) w r.2
  ∧ ∀ y df, r.1 !! y = Some df →
      dfs0 !! y = Some df
      ∨ (y ∈ years ∧ ∃ raw, df = rank_df s raw ∧ empty raw = false).
Proof.
  induction years as [|year rest IH]; intros dfs0 w; cbv zeta.
  - split; [apply keeps_cache_refl|split; [apply sends_years_refl|]].
    intros y df Hy. by left.
  - rewrite collect_year_dfs_cons. cbv zeta.
    pose proof (fetch_year_df_keeps cm api year w) as Hk.
    pose proof (fetch_year_df_sends cm api year w) as Hs.
    revert Hk Hs. generalize (fetch_year_df cm api year w).
    intros [raw w1] Hk Hs. cbn [fst snd] in *.
    destruct (IH (if empty raw then dfs0 else <[year := rank_df s raw]> dfs0) w1)
      as (Hk' & Hs' & Hr'). cbv zeta in *.
    split; [exact (keeps_cache_trans _ _ _ Hk Hk')|split].
    + eapply sends_years_trans.
      * eapply sends_years_weaken; [|exact Hs]. intros z ->. by left.
      * eapply sends_years_weaken; [|exact Hs']. intros z ?. by right.
    + intros y df Hy. destruct (Hr' y df Hy) as [H0|[Hin Hraw]].
      * destruct (empty raw) eqn:He; [by left|].
        destruct (decide (year = y)) as [<-|Hne].
        -- rewrite lookup_insert_eq in H0. simplify_eq. right.
           split; [by left|]. by exists raw.
        -- rewrite lookup_insert_ne in H0 by done. by left.
      * right. split; [by right|done].
Qed.

Lemma rank_df_dense s df : rank <$> rank_df s df = ranks_upto (length (rank_df s df)).
Proof.
  unfold rank_df.
  by rewrite assign_rank_ranks, assign_rank_length.
Qed.

Lemma rank_df_empty s df : empty (rank_df s df) = empty df.
Proof.
  pose proof (rank_df_length s df).
  destruct (rank_df s df), df; simplify_eq/=; done.
Qed.

(** X18.  The loop of [main_race] over the years puts into [year_dfs]
    only years of its range, and for each of them the ranked frame of a
    frame with rows: the frame has rows and its ranks are 1, ..., N.  It
    keeps the cached frames with rows, writes no frame without rows and
    sends requests only for years of the range. *)
Theorem collect_year_dfs_ranked (cm : gmap string string)
    (api : nat → string → Z → Response) (s : Sorter) (years : list Z)
    (w : World) :
  let r := collect_year_dfs cm api s years ∅ w in
  (∀ y df, r.1 !! y = Some df →
     y ∈ years ∧ empty df = false
     ∧ rank <$> df = ranks_upto (length df)
     ∧ ∃ raw, df = rank_df s raw)
  ∧ keeps_cache w r.2
  ∧ sends_years (λ y, y ∈ years) w r.2.
Proof.
  cbv zeta.
  destruct (collect_year_dfs_post cm api s years ∅ w) as (Hk & Hs & Hr).
  cbv zeta in *. split; [|done].
  intros y df Hy. destruct (Hr y df Hy) as [H0|[Hin (raw & -> & He)]].
  - by rewrite lookup_empty in H0.
  - split_and!; [done|by rewrite rank_df_empty|apply rank_df_dense|by exists raw].
Qed.

(** ** The race as a whole *)






Lemma main_race_eq cm api s update_cache this_year w :
  main_race cm api s update_cache this_year w
  = let e := race_end cm api update_cache this_year w in
    match e.1 with
    | None => (None, e.2)
    | Some end_ =>
        let c := collect_year_dfs cm api s (range START_YEAR (end_ + 1)) ∅ e.2 in
        (Some (main_race_frames s c.1 START_YEAR end_ 12), c.2)
    end.
Proof.
  unfold main_race, bind at 1.
  destruct (race_end cm api update_cache this_year w) as [[e|] w1];
    cbv zeta; cbn [fst snd]; [|done].
  unfold bind. by destruct (collect_year_dfs _ _ _ _ _ _).
Qed.


(** ** The frames of the race *)

Lemma main_race_frames_pairs s year_dfs start end_ steps :
  (λ f, (f_df f, f_label f)) <$> main_race_frames s year_dfs start end_ steps
  = race_frames s year_dfs start end_ steps.
Proof.
  rewrite main_race_frames_emit.
  by destruct (foldl_emit_spec (race_frames s year_dfs start end_ steps)
                 (mkSeqState 0 None [])) as (H1 & _).
Qed.

Lemma elem_of_pair_frames s year_dfs steps y df lab :
  (df, lab) ∈ pair_frames s year_dfs steps y ↔
  ∃ k df0 df1, year_dfs !! y = Some df0 ∧ year_dfs !! (y + 1) = Some df1
               ∧ (k < steps)%nat
               ∧ df = interpolate_df s df0 df1 (step_t k steps)
               ∧ lab = LInterp y (step_t k steps).
Proof.
  unfold pair_frames.
  destruct (year_dfs !! y) as [df0|]; [destruct (year_dfs !! (y + 1)) as [df1|]|].
  - rewrite list_elem_of_fmap. split.
    + intros (k & [= -> ->] & Hk%elem_of_seq). exists k, df0, df1.
      split_and!; [done..|lia|done|done].
    + intros (k & ? & ? & [= <-] & [= <-] & Hk & -> & ->). exists k.
      split; [done|]. apply elem_of_seq. lia.
  - split; [by intros []%elem_of_nil|]. by intros (? & ? & ? & _ & ? & _).
  - split; [by intros []%elem_of_nil|]. by intros (? & ? & ? & ? & _).
Qed.

Lemma elem_of_race_frames s year_dfs start end_ steps df lab :
  (df, lab) ∈ race_frames s year_dfs start end_ steps ↔
  (∃ y k df0 df1, start ≤ y < end_
                  ∧ year_dfs !! y = Some df0 ∧ year_dfs !! (y + 1) = Some df1
                  ∧ (k < steps)%nat
                  ∧ df = interpolate_df s df0 df1 (step_t k steps)
                  ∧ lab = LInterp y (step_t k steps))
  ∨ (lab = LYear end_ ∧ year_dfs !! end_ = Some df).
Proof.
  unfold race_frames. rewrite elem_of_app, list_elem_of_bind. split.
  - intros [(y & Hp & Hy%elem_of_seqZ)|Hlast].
    + left. apply elem_of_pair_frames in Hp as (k & df0 & df1 & ?).
      exists y, k, df0, df1. split; [lia|done].
    + right. destruct (year_dfs !! end_) as [d|]; [|by apply elem_of_nil in Hlast].
      apply list_elem_of_singleton in Hlast. by simplify_eq.
  - intros [(y & k & df0 & df1 & Hy & Hrest)|[-> Hl]].
    + left. exists y. split; [|apply elem_of_seqZ; lia].
      apply elem_of_pair_frames. by exists k, df0, df1.
    + right. rewrite Hl. by apply list_elem_of_singleton.
Qed.

Lemma step_t_range k steps :
  (k < steps)%nat → (0 <= step_t k steps)%Q ∧ (step_t k steps < 1)%Q.
Proof.
  intros Hk. unfold step_t.
  assert (0 < inject_Z (Z.of_nat steps))%Q as Hpos.
  { change 0%Q with (inject_Z 0). rewrite <-Zlt_Qlt. lia. }
  split.
  - apply Qle_shift_div_l; [done|]. rewrite Qmult_0_l.
    change 0%Q with (inject_Z 0). rewrite <-Zle_Qle. lia.
  - apply Qlt_shift_div_r; [done|]. rewrite Qmult_1_l.
    rewrite <-Zlt_Qlt. lia.
Qed.

(** X20.  Every frame that [main_race] draws is either an interpolated
    frame of a year pair inside the range whose two years both have a
    frame, with [t] at least 0 and below 1, or the frame of the last
    year.  A year without a frame has no frame of its own and none of
    the pairs it belongs to. *)
Theorem main_race_frames_labels (s : Sorter) (year_dfs : gmap Z DataFrame)
    (start end_ : Z) (steps : nat) (f : Frame) :
  f ∈ main_race_frames s year_dfs start end_ steps →
  match f_label f with
  | LInterp y t =>
      start ≤ y < end_ ∧ (0 <= t)%Q ∧ (t < 1)%Q
      ∧ ∃ df0 df1, year_dfs !! y = Some df0 ∧ year_dfs !! (y + 1) = Some df1
                   ∧ f_df f = interpolate_df s df0 df1 t
  | LYear y => y = end_ ∧ year_dfs !! end_ = Some (f_df f)
  end.
Proof.
  intros Hf.
  assert ((f_df f, f_label f) ∈ race_frames s year_dfs start end_ steps) as Hin.
  { rewrite <-main_race_frames_pairs.
    by apply (list_elem_of_fmap_2 (λ f, (f_df f, f_label f))). }
  apply elem_of_race_frames in Hin
    as [(y & k & df0 & df1 & Hy & H0 & H1 & Hk & Hdf & ->)|[-> Hl]].
  - destruct (step_t_range k steps Hk) as [? ?].
    split_and!; [lia|lia|done|done|]. by exists df0, df1.
  - done.
Qed.

Lemma main_race_frames_labels_witness :
  match f_label (mkFrame (rank_df stable_sorter year_2002) None (LYear 2002) 0)
  with
  | LInterp y t =>
      2002 ≤ y < 2002 ∧ (0 <= t)%Q ∧ (t < 1)%Q
      ∧ ∃ df0 df1, years_2000_2002 !! y = Some df0
                   ∧ years_2000_2002 !! (y + 1) = Some df1
                   ∧ rank_df stable_sorter year_2002
                     = interpolate_df stable_sorter df0 df1 t
  | LYear y =>
      y = 2002
      ∧ years_2000_2002 !! 2002 = Some (rank_df stable_sorter year_2002)
  end.
Proof.
  apply (main_race_frames_labels stable_sorter years_2000_2002 2002 2002 2
           (mkFrame (rank_df stable_sorter year_2002) None (LYear 2002) 0)).
  assert (main_race_frames stable_sorter years_2000_2002 2002 2002 2
          = [mkFrame (rank_df stable_sorter year_2002) None (LYear 2002) 0])
    as Heq by (vm_compute; reflexivity).
  rewrite Heq. left.
Defined.

Lemma pair_frames_length s year_dfs steps y :
  length (pair_frames s year_dfs steps y)
  = if decide (is_Some (year_dfs !! y) ∧ is_Some (year_dfs !! (y + 1)))
    then steps else 0%nat.
Proof.
  unfold pair_frames.
  destruct (year_dfs !! y) as [df0|]; [destruct (year_dfs !! (y + 1)) as [df1|]|].
  - rewrite decide_True by (split; eauto).
    by rewrite length_fmap, length_seq.
  - rewrite decide_False; [done|]. by intros [_ [? ?]].
  - rewrite decide_False; [done|]. by intros [[? ?] _].
Qed.

(** The years [y] of the range whose pair [(y, y+1)] has both frames. *)
Definition present_pairs (year_dfs : gmap Z DataFrame) (start end_ : Z)
  : list Z :=
  filter (λ y, is_Some (year_dfs !! y) ∧ is_Some (year_dfs !! (y + 1)))
         (range start end_).

(** X21.  [main_race] draws [steps] frames for every year pair of the
    range whose two years both have a frame, and one more when the last
    year has a frame. *)
Theorem main_race_frames_length (s : Sorter) (year_dfs : gmap Z DataFrame)
    (start end_ : Z) (steps : nat) :
  length (main_race_frames s year_dfs start end_ steps)
  = (steps * length (present_pairs year_dfs start end_)
     + match year_dfs !! end_ with Some _ => 1 | None => 0 end)%nat.
Proof.
  rewrite <-(length_fmap (λ f, (f_df f, f_label f))), main_race_frames_pairs.
  unfold race_frames, present_pairs, range. rewrite length_app. f_equal.
  - generalize (seqZ start (end_ - start)). intros ys.
    induction ys as [|y ys IH]; [simpl; lia|].
    csimpl. rewrite length_app, IH, pair_frames_length, filter_cons.
    case_decide; simpl; lia.
  - by destruct (year_dfs !! end_).
Qed.

Lemma interpolate_df_dense s df0 df1 t :
  rank <$> interpolate_df s df0 df1 t
  = ranks_upto (length (interpolate_df s df0 df1 t)).
Proof.
  unfold interpolate_df. by rewrite assign_rank_ranks, assign_rank_length.
Qed.

(** X22.  Every frame that a run of [main_race] draws has the ranks
    1, ..., N from its first row to its last. *)
Theorem main_race_dense (cm : gmap string string)
    (api : nat → string → Z → Response) (s : Sorter) (update_cache : bool)
    (this_year : Z) (w : World) (fs : list Frame) (f : Frame) :
  (main_race cm api s update_cache this_year w).1 = Some fs → f ∈ fs →
  rank <$> f_df f = ranks_upto (length (f_df f)).
Proof.
  rewrite main_race_eq. cbv zeta.
  destruct (race_end cm api update_cache this_year w) as [[end_|] w1];
    cbn [fst snd]; [|done].
  destruct (collect_year_dfs_post cm api s (range START_YEAR (end_ + 1)) ∅ w1)
    as (_ & _ & Hr). cbv zeta in Hr. revert Hr.
  generalize (collect_year_dfs cm api s (range START_YEAR (end_ + 1)) ∅ w1).
  intros [dfs w2] Hr. cbn [fst snd] in *. intros [= <-] Hf.
  assert ((f_df f, f_label f) ∈ race_frames s dfs START_YEAR end_ 12) as Hin.
  { rewrite <-main_race_frames_pairs.
    by apply (list_elem_of_fmap_2 (λ f, (f_df f, f_label f))). }
  apply elem_of_race_frames in Hin
    as [(y & k & df0 & df1 & _ & _ & _ & _ & -> & _)|[_ Hl]].
  - apply interpolate_df_dense.
  - destruct (Hr _ _ Hl) as [H0|[_ (raw & -> & _)]].
    + by rewrite lookup_empty in H0.
    + apply rank_df_dense.
Qed.

Lemma main_race_dense_witness :
  rank <$> rank_df stable_sorter year_2001
  = ranks_upto (length (rank_df stable_sorter year_2001)).
Proof.
  assert (∃ fs prev,
    (main_race continents_sample api_sample stable_sorter false 2022
       (mkWorld {[ 2000 := year_2000; 2001 := year_2001 ]} [])).1 = Some fs
    ∧ fs !! 12%nat
      = Some (mkFrame (rank_df stable_sorter year_2001) prev (LYear 2001) 12))
    as (fs & prev & Hfs & Hf).
  { eexists _, _. split; [vm_compute; reflexivity|]. vm_compute. reflexivity. }
  exact (main_race_dense continents_sample api_sample stable_sorter false 2022
           (mkWorld {[ 2000 := year_2000; 2001 := year_2001 ]} []) fs
           (mkFrame (rank_df stable_sorter year_2001) prev (LYear 2001) 12)
           Hfs (list_elem_of_lookup_2 _ _ _ Hf)).
Defined.

(** ** The yearly frames of [main] *)

Lemma main_frames_post year_dfs years : ∀ prev,
  let fs := main_frames year_dfs prev years in
  yf_year <$> fs = filter (λ y, is_Some (year_dfs !! y)) years
  ∧ Forall (λ f, year_dfs !! yf_year f = Some (yf_df f)) fs
  ∧ yf_prev <$> fs = take (length fs) (prev :: (Some ∘ yf_df <$> fs)).
Proof.
  induction years as [|y years IH]; intros prev; cbv zeta.
  - by split_and!.
  - cbn [main_frames]. destruct (year_dfs !! y) as [df|] eqn:Hy.
    + destruct (IH (Some df)) as (H1 & H2 & H3). cbv zeta in *.
      rewrite filter_cons_True by (by rewrite Hy).
      split_and!.
      * csimpl. by rewrite H1.
      * by constructor.
      * csimpl. by rewrite H3.
    + destruct (IH prev) as (H1 & H2 & H3).
      rewrite filter_cons_False; [done|]. rewrite Hy. by intros [? ?].
Qed.

(** X23.  The second loop of [main] draws one frame for every year of
    its list that has a frame, in the order of the list, and none for a
    year without one; every frame is drawn with the frame drawn before it
    as the previous one, the first with none, so that a year without a
    frame is passed over in the chain as well. *)
Theorem main_frames_spec (year_dfs : gmap Z DataFrame) (years : list Z) :
  let fs := main_frames year_dfs None years in
  yf_year <$> fs = filter (λ y, is_Some (year_dfs !! y)) years
  ∧ Forall (λ f, year_dfs !! yf_year f = Some (yf_df f)) fs
  ∧ yf_prev <$> fs = take (length fs) (None :: (Some ∘ yf_df <$> fs)).
Proof. apply main_frames_post. Qed.

Lemma main_year_dfs_cached cm api s years : ∀ dfs w,
  (main_year_dfs cm api s false years dfs w).2 = w.
Proof.
  induction years as [|y years IH]; intros dfs w; [done|].
  cbn [main_year_dfs]. unfold bind, read_csv.
  destruct (empty _); apply IH.
Qed.

Lemma main_eq_false cm api s w :
  main cm api s false w
  = match filter (λ y, START_YEAR ≤ y ≤ END_YEAR) (cache_years w) with
    | [] => (None, w)
    | y :: l =>
        let r := main_year_dfs cm api s false (y :: l) ∅ w in
        (Some (main_frames r.1 None (y :: l)), r.2)
    end.
Proof.
  unfold main, bind at 1. unfold bind at 1, list_cached_years.
  destruct (filter _ (cache_years w)) as [|y l]; [done|].
  unfold ret at 1. cbv beta iota zeta. unfold bind at 1.
  by destruct (main_year_dfs cm api s false (y :: l) ∅ w).
Qed.

(** X24.  Told to use the cache only, [main] sends no request and
    writes nothing: the world is left as it is.  It fails with its
    [RuntimeError] exactly when no year from [START_YEAR] to [END_YEAR]
    has a file. *)
Theorem main_cached_only (cm : gmap string string)
    (api : nat → string → Z → Response) (s : Sorter) (w : World) :
  let r := main cm api s false w in
  r.2 = w
  ∧ (r.1 = None ↔
     ∀ y, START_YEAR ≤ y ≤ END_YEAR → cache w !! y = None).
Proof.
  cbv zeta. rewrite main_eq_false.
  destruct (filter _ (cache_years w)) as [|y l] eqn:Hf.
  - split; [done|]. split; [|done]. intros _ y Hy.
    destruct (cache w !! y) as [df|] eqn:Hc; [|done]. exfalso.
    assert (y ∈ filter (λ y, START_YEAR ≤ y ≤ END_YEAR) (cache_years w)) as Hin.
    { apply list_elem_of_filter. split; [done|].
      apply elem_of_cache_years. by rewrite Hc. }
    rewrite Hf in Hin. by apply elem_of_nil in Hin.
  - cbv zeta. cbn [fst snd]. split; [apply main_year_dfs_cached|].
    split; [done|]. intros Hnone. exfalso.
    assert (y ∈ filter (λ y, START_YEAR ≤ y ≤ END_YEAR) (cache_years w)) as Hin
      by (rewrite Hf; left).
    apply list_elem_of_filter in Hin as [Hy [df Hc]%elem_of_cache_years].
    by rewrite (Hnone y Hy) in Hc.
Qed.

(** ** Grouping by continent *)

(** The frame of one continent in [top_n_grouped]. *)
Definition continent_part (s : Sorter) (df_top : DataFrame) (cont : string)
  : DataFrame :=
  sort_values s (filter (λ r, continent r = Some cont) df_top).

Lemma sort_values_empty s df : empty (sort_values s df) = empty df.
Proof.
  pose proof (sort_values_length s df).
  destruct (sort_values s df), df; simplify_eq/=; done.
Qed.

Lemma omap_parts_concat s df_top (conts : list string) :
  concat (omap (λ cont, if empty (continent_part s df_top cont) then None
                        else Some (continent_part s df_top cont)) conts)
  = conts ≫= continent_part s df_top.
Proof.
  induction conts as [|c conts IH]; [done|]. csimpl.
  destruct (continent_part s df_top c) eqn:Hc; csimpl; by rewrite IH.
Qed.

Lemma continent_parts_concat s df_top :
  concat (continent_parts s df_top)
  = CONTINENT_ORDER ≫= continent_part s df_top.
Proof. apply omap_parts_concat. Qed.

Lemma concat_snoc {A} (ls : list (list A)) (l : list A) :
  concat (ls ++ [l]) = concat ls ++ l.
Proof. by rewrite concat_app; simpl; rewrite app_nil_r. Qed.

(** The category of the row is one of [conts]. *)
Definition isin (conts : list string) (r : Row) : bool :=
  match continent r with
  | Some c => bool_decide (c ∈ conts)
  | None => false
  end.

Lemma split_by_continent (conts : list string) (l : DataFrame) :
  NoDup conts →
  (conts ≫= λ c, filter (λ r, continent r = Some c) l)
  ++ filter (λ r, isin conts r = false) l ≡ₚ l.
Proof.
  induction 1 as [|c conts Hc Hnd IH].
  - csimpl. rewrite filter_all; [done|]. apply Forall_true. intros r.
    unfold isin. destruct (continent r); [|done].
    apply bool_decide_eq_false, not_elem_of_nil.
  - csimpl. etrans; [|exact IH].
    rewrite (Permutation_app_comm (filter _ l) (conts ≫= _)), <-app_assoc.
    f_equiv.
    rewrite <-(filter_app_complement (λ r, continent r = Some c)
                 (filter (λ r, isin conts r = false) l)).
    rewrite !list_filter_filter. f_equiv.
    + apply reflexive_eq, list_filter_iff. intros r. unfold isin.
      destruct (continent r) as [c'|]; [|by split; [|intros [? _]]].
      rewrite bool_decide_eq_false. split; [|by intros [? _]].
      intros [= ->]. done.
    + apply reflexive_eq, list_filter_iff. intros r. unfold isin.
      destruct (continent r) as [c'|]; [|by split].
      rewrite !bool_decide_eq_false, not_elem_of_cons. split.
      * intros [? ?]. split; [congruence|done].
      * intros [? ?]. split; [congruence|done].
Qed.

Lemma CONTINENT_ORDER_NoDup : NoDup CONTINENT_ORDER.
Proof. apply (bool_decide_unpack _). vm_compute. exact I. Qed.

(** X25.  [top_n_grouped] gives the first [top_n] rows of the frame in
    descending order of value, regrouped: the rows of each continent of
    [CONTINENT_ORDER], in the order of this list, each group sorted by
    itself, and after them the rows of any other category or of none.
    No row is lost and none is added. *)
Theorem top_n_grouped_spec (s : Sorter) (df : DataFrame) (top_n : nat) :
  let df_top := take top_n (sort_values s df) in
  top_n_grouped s df top_n
  = (CONTINENT_ORDER ≫= continent_part s df_top)
    ++ sort_values s (filter (λ r, isin_order r = false) df_top)
  ∧ top_n_grouped s df top_n ≡ₚ df_top.
Proof.
  cbv zeta. set (df_top := take top_n (sort_values s df)).
  set (rest := sort_values s (filter (λ r, isin_order r = false) df_top)).
  assert ((CONTINENT_ORDER ≫= continent_part s df_top) ++ rest ≡ₚ df_top)
    as Hperm.
  { etrans; [|apply (split_by_continent CONTINENT_ORDER), CONTINENT_ORDER_NoDup].
    apply Permutation_app.
    - generalize CONTINENT_ORDER. intros conts.
      induction conts as [|c conts IH]; [done|]. csimpl.
      apply Permutation_app; [apply sort_values_perm|exact IH].
    - unfold rest. apply sort_values_perm. }
  rewrite <-continent_parts_concat in Hperm |- *.
  assert (top_n_grouped s df top_n = concat (continent_parts s df_top) ++ rest)
    as Heq.
  { unfold top_n_grouped. cbv zeta. fold df_top. fold rest.
    revert Hperm. generalize (continent_parts s df_top). intros parts Hperm.
    destruct rest as [|r rest']; cbn [empty].
    - rewrite app_nil_r in *. destruct parts as [|p parts]; [|done].
      simpl in *. symmetry. by apply Permutation_nil_l.
    - rewrite <-concat_snoc. by destruct parts. }
  split; [done|]. by rewrite Heq.
Qed.


(** ** The bars of [render_frame] *)

Lemma cont_order_NoDup : NoDup cont_order.
Proof. apply (bool_decide_unpack _). vm_compute. exact I. Qed.

Lemma bar_traces_names df_bar :
  (bar_traces df_bar).*1 = present_of (cont_seq_of df_bar).
Proof.
  unfold bar_traces. cbv zeta. rewrite <-list_fmap_compose.
  apply list_fmap_id.
Qed.

Lemma elem_of_bar_traces df_bar cont xs :
  (cont, xs) ∈ bar_traces df_bar ↔
  cont ∈ cont_order ∧ cont ∈ cont_seq_of df_bar
  ∧ xs = x_cont_of (life <$> df_bar) (cont_seq_of df_bar) cont.
Proof.
  unfold bar_traces, present_of. cbv zeta. rewrite list_elem_of_fmap. split.
  - intros (c & [= -> ->] & [? ?]%list_elem_of_filter). done.
  - intros (? & ? & ->). exists cont. split; [done|].
    by apply list_elem_of_filter.
Qed.

(** X26.  The coloured traces of the bar chart.  The bar of a row is
    drawn by the trace of its own continent ("Other" when it has none)
    and left out ([None]) by every other trace; there is such a trace
    exactly when that continent is one of [cont_order], so a row of any
    other category, like "Antarctica", has the grey bar of the base
    trace only.  No continent has two traces. *)
Theorem bar_traces_spec (df_bar : DataFrame) (i : nat) (r : Row) :
  df_bar !! i = Some r →
  let c := default "Other"%string (continent r) in
  (∀ cont xs, (cont, xs) ∈ bar_traces df_bar →
     xs !! i = Some (if bool_decide (c = cont) then Some (life r) else None))
  ∧ ((∃ xs, (c, xs) ∈ bar_traces df_bar) ↔ c ∈ cont_order)
  ∧ NoDup (bar_traces df_bar).*1.
Proof.
  intros Hr c.
  assert (cont_seq_of df_bar !! i = Some c) as Hc.
  { unfold cont_seq_of. by rewrite list_lookup_fmap, Hr. }
  split; [|split].
  - intros cont xs (_ & _ & ->)%elem_of_bar_traces.
    unfold x_cont_of. by rewrite lookup_zip_with, list_lookup_fmap, Hr, Hc.
  - split.
    + by intros [xs (? & _)%elem_of_bar_traces].
    + intros Hin. eexists. apply elem_of_bar_traces.
      split; [done|]. split; [|done]. by eapply list_elem_of_lookup_2.
  - rewrite bar_traces_names. apply NoDup_filter, cont_order_NoDup.
Qed.

Lemma bar_traces_spec_witness :
  let r := mkRow "AUS" (Some 80%Q) (Some "Oceania"%string) None in
  let c := default "Other"%string (continent r) in
  (∀ cont xs, (cont, xs) ∈ bar_traces year_2001 →
     xs !! 2%nat = Some (if bool_decide (c = cont) then Some (life r) else None))
  ∧ ((∃ xs, (c, xs) ∈ bar_traces year_2001) ↔ c ∈ cont_order)
  ∧ NoDup (bar_traces year_2001).*1.
Proof.
  apply (bar_traces_spec year_2001 2
           (mkRow "AUS" (Some 80%Q) (Some "Oceania"%string) None)).
  reflexivity.
Defined.

(** *** The value axis *)

Lemma py_max_ge_l a b : (a <= py_max a b)%Q.
Proof.
  unfold py_max. destruct (Qle_bool b a) eqn:Hb; [apply Qle_refl|].
  destruct (Qlt_le_dec a b) as [?%Qlt_le_weak|Hle]; [done|].
  apply Qle_bool_iff in Hle. congruence.
Qed.

Lemma py_max_ge_r a b : (b <= py_max a b)%Q.
Proof.
  unfold py_max. destruct (Qle_bool b a) eqn:Hb; [|apply Qle_refl].
  by apply Qle_bool_iff.
Qed.

Lemma life_max_ge df_bar r v :
  r ∈ df_bar → life r = Some v →
  ∃ m, life_max df_bar = Some m ∧ (v <= m)%Q.
Proof.
  induction df_bar as [|r' df_bar IH]; intros Hin Hv.
  - by apply elem_of_nil in Hin.
  - cbn [life_max foldr]. fold (life_max df_bar).
    apply elem_of_cons in Hin as [<-|Hin].
    + rewrite Hv. destruct (life_max df_bar) as [m'|].
      * eexists. split; [done|]. apply py_max_ge_r.
      * eexists. split; [done|]. apply Qle_refl.
    + destruct (IH Hin Hv) as (m & -> & Hm).
      destruct (life r') as [v'|].
      * eexists. split; [done|].
        eapply Qle_trans; [exact Hm|apply py_max_ge_l].
      * by exists m.
Qed.

(** X27.  The value axis of the bar chart ends at 85 or further to the
    right, and every value of a visible row, with the [pad] of 3 for its
    label, lies on it. *)
Theorem x_hi_of_bounds (df_bar : DataFrame) (r : Row) (v : Q) :
  r ∈ df_bar → life r = Some v →
  (RANGE_COLOR_HI <= x_hi_of df_bar)%Q ∧ (v + pad <= x_hi_of df_bar)%Q.
Proof.
  intros Hin Hv. unfold x_hi_of.
  destruct (life_max_ge df_bar r v Hin Hv) as (m & -> & Hm).
  destruct df_bar as [|r0 df_bar]; [by apply elem_of_nil in Hin|].
  cbn [empty]. split; [apply py_max_ge_l|].
  eapply Qle_trans; [|apply py_max_ge_r].
  apply Qplus_le_compat; [exact Hm|apply Qle_refl].
Qed.

Lemma x_hi_of_bounds_witness :
  (RANGE_COLOR_HI <= x_hi_of year_2001)%Q ∧ (82 + pad <= x_hi_of year_2001)%Q.
Proof.
  apply (x_hi_of_bounds year_2001
           (mkRow "JPN" (Some 82%Q) (Some "Asia"%string) None) 82%Q).
  - right. left.
  - reflexivity.
Defined.

(** ** The cache of the revision of 26 February *)

(** X28.  In the revision of 26 February, after a call of
    [fetch_year_df] the file of the year is there and holds the frame
    returned, with or without rows, and a second call returns this frame
    again and leaves the world as it is: a year for which nothing could
    be fetched is never asked for again. *)
Theorem fetch_year_df_20260226_stored (cm : gmap string string)
    (api : nat → string → Z → Response) (year : Z) (w : World) :
  let r := Rev20260226.fetch_year_df cm api year w in
  cache r.2 !! year = Some r.1
  ∧ Rev20260226.fetch_year_df cm api year r.2 = (r.1, r.2).
Proof.
  cbv zeta.
  assert (cache (Rev20260226.fetch_year_df cm api year w).2 !! year
          = Some (Rev20260226.fetch_year_df cm api year w).1) as Hc.
  { unfold Rev20260226.fetch_year_df.
    destruct (cache w !! year) as [df|] eqn:Hw; [done|].
    unfold bind, to_csv, ret. destruct (fetch_rows cm api year w) as [df w1].
    cbn [fst snd cache]. apply lookup_insert_eq. }
  split; [exact Hc|].
  revert Hc. generalize (Rev20260226.fetch_year_df cm api year w).
  intros [df w1]. cbn [fst snd]. intros Hc.
  unfold Rev20260226.fetch_year_df. by rewrite Hc.
Qed.

(** ** The subtitle of the bar chart *)

Lemma count_of_pos cont_seq c : (0 < count_of cont_seq c)%nat ↔ c ∈ cont_seq.
Proof.
  unfold count_of. induction cont_seq as [|c' cont_seq IH].
  - simpl. rewrite elem_of_nil. lia.
  - rewrite filter_cons, elem_of_cons. case_decide as Hc; simpl.
    + split; [auto|lia].
    + rewrite IH. split; [auto|]. intros [?|?]; [congruence|done].
Qed.

Lemma x_cont_of_count (x : list (option Q)) : ∀ cont_seq c,
  length x = length cont_seq →
  length (filter is_Some (x_cont_of x cont_seq c)) = count_of cont_seq c.
Proof.
  unfold x_cont_of, count_of.
  induction x as [|v x IH]; intros [|c' cont_seq] c Hlen; try done.
  cbn [zip_with]. rewrite !filter_cons.
  injection Hlen as Hlen. specialize (IH cont_seq c Hlen).
  case_bool_decide as Hc.
  - rewrite decide_True by eauto. rewrite decide_True by done.
    simpl. by rewrite IH.
  - rewrite decide_False by (by intros [? ?]). by rewrite decide_False by done.
Qed.

Lemma subtitle_loop_spec (x : list (option Q)) (cont_seq cs : list string) :
  length x = length cont_seq →
  Forall (λ c, is_Some (CONT_ABBR !! c)) cs →
  ∃ entries,
    subtitle_loop (count_of cont_seq) cs = Some entries
    ∧ Forall2 (λ e tr, CONT_ABBR !! tr.1 = Some e.1
                       ∧ e.2 = length (filter is_Some tr.2))
        entries
        ((λ cont, (cont, x_cont_of x cont_seq cont))
         <$> filter (λ c, c ∈ cont_seq) cs).
Proof.
  intros Hlen. induction 1 as [|c cs [abbr Habbr] _ (entries & IH & Hall)].
  - by exists [].
  - cbn [subtitle_loop]. rewrite filter_cons. case_bool_decide as Hc.
    + rewrite decide_True by (by apply count_of_pos).
      rewrite Habbr, IH. csimpl. eexists. split; [done|].
      constructor; [|done]. cbn [fst snd]. by rewrite x_cont_of_count.
    + rewrite decide_False by (by rewrite <-count_of_pos). by exists entries.
Qed.

(** X29.  The subtitle of the bar chart is made without a [KeyError]
    and names, in the same order, exactly the continents that have a
    coloured trace, each with the number of bars that its trace draws. *)
Theorem subtitle_parts_traces (df_bar : DataFrame) :
  ∃ entries,
    subtitle_parts df_bar = Some entries
    ∧ Forall2 (λ e tr, CONT_ABBR !! tr.1 = Some e.1
                       ∧ e.2 = length (filter is_Some tr.2))
        entries (bar_traces df_bar).
Proof.
  apply subtitle_loop_spec.
  - unfold cont_seq_of. by rewrite !length_fmap.
  - apply (bool_decide_unpack _). vm_compute. exact I.
Qed.
